(** * test262-harness: a shallow embedding of [src/lib.rs] and [src/error.rs]

    Strings are byte strings ([String.string] is a list of 8-bit [ascii]
    characters), so a [String.length] is a Rust byte length and every index
    below is a byte index, as [str::find] and [str] slicing use them.

    A Rust panic is the [Panic] constructor of [outcome]; the [Result] of the
    source is [result]. The external crates are modelled at their interface:
    - [walkdir]: the list of entries the configured walk yields;
    - [serde_yaml]: the YAML text parser is a parameter producing a YAML
      value; the [#[derive(Deserialize)]] code of this crate (field names,
      [#[serde(default)]], [#[serde(alias)]], [rename_all]) is written out;
    - [regex]: the compilation of the fixed license pattern is a parameter;
    - [std::fs::read_to_string]: a parameter. *)

From Stdlib Require Import String Ascii List Bool Arith Lia.
Import ListNotations.
Open Scope string_scope.
Set Warnings "-register-all".

(** ** Results and panics *)

Inductive result (T E : Type) : Type :=
| Ok (t : T)
| Err (e : E).
Arguments Ok {T E} t.
Arguments Err {T E} e.

(** The outcome of running Rust code: it returns, or it panics. *)
Inductive outcome (A : Type) : Type :=
| Ret (a : A)
| Panic.
Arguments Ret {A} a.
Arguments Panic {A}.

(** ** Byte strings, as [str] *)

(** [str::find]: byte index of the first occurrence of [pat]. *)
Fixpoint find_from (pat s : string) (i : nat) : option nat :=
  if String.prefix pat s then Some i
  else match s with
       | EmptyString => None
       | String _ s' => find_from pat s' (S i)
       end.

Definition str_find (s pat : string) : option nat := find_from pat s 0.

(** [str::is_char_boundary]: index 0, the end, or a byte that is not a
    UTF-8 continuation byte ([0x80..0xBF]). *)
Definition is_char_boundary (s : string) (i : nat) : bool :=
  Nat.eqb i 0 || Nat.eqb i (String.length s) ||
  (Nat.ltb i (String.length s) &&
   match String.get i s with
   | Some c => negb (Nat.leb 128 (nat_of_ascii c) && Nat.leb (nat_of_ascii c) 191)
   | None => false
   end).

(** [&s[a..b]]: panics unless [a <= b <= len] at character boundaries. *)
Definition str_slice (s : string) (a b : nat) : outcome string :=
  if Nat.leb a b && Nat.leb b (String.length s)
     && is_char_boundary s a && is_char_boundary s b
  then Ret (substring a (b - a) s)
  else Panic.

Definition ascii_CR : ascii := ascii_of_nat 13.
Definition ascii_LF : ascii := ascii_of_nat 10.

(** [s.replace("\r", "\n")] *)
Fixpoint replace_cr (s : string) : string :=
  match s with
  | EmptyString => EmptyString
  | String c s' =>
      String (if Ascii.eqb c ascii_CR then ascii_LF else c) (replace_cr s')
  end.

(** [str::ends_with] *)
Definition ends_with (s suf : string) : bool :=
  Nat.leb (String.length suf) (String.length s) &&
  String.eqb (substring (String.length s - String.length suf)
                        (String.length suf) s) suf.

(** ** YAML values and the [Deserialize] derives of [lib.rs] *)

(** A parsed YAML node as [serde_yaml] hands it to a [Deserialize]
    implementation: a scalar (with its text), a sequence, or a mapping
    with string keys in document order. *)
Inductive yaml : Type :=
| YScalar (s : string)
| YSeq (l : list yaml)
| YMap (l : list (string * yaml)).

(** The [serde::de::Error] values the derives can raise. *)
Inductive DeError : Type :=
| InvalidType
| UnknownVariant (s : string)
| MissingField (f : string)
| DuplicateField (f : string).

(** [serde_yaml] 0.8 reads these plain scalars as null
    ([deserialize_option]: [v != "~" && v != "null"]); an empty value
    reaches it as [~]. *)
Definition is_null_scalar (s : string) : bool :=
  existsb (String.eqb s) ["~"; "null"].

Definition de_string (v : yaml) : result string DeError :=
  match v with
  | YScalar s => Ok s
  | _ => Err InvalidType
  end.

(** [Option<T>]: a null scalar is [None], anything else is [Some] of [T]. *)
Definition de_option {A} (d : yaml -> result A DeError) (v : yaml)
  : result (option A) DeError :=
  match v with
  | YScalar s =>
      if is_null_scalar s then Ok None
      else match d v with Ok x => Ok (Some x) | Err e => Err e end
  | _ => match d v with Ok x => Ok (Some x) | Err e => Err e end
  end.

(** [Vec<T>]: a sequence, elements decoded in order, first error wins. *)
Fixpoint de_elems {A} (d : yaml -> result A DeError) (l : list yaml)
  : result (list A) DeError :=
  match l with
  | [] => Ok []
  | v :: l' =>
      match d v with
      | Err e => Err e
      | Ok x => match de_elems d l' with
                | Ok xs => Ok (x :: xs)
                | Err e => Err e
                end
      end
  end.

Definition de_vec {A} (d : yaml -> result A DeError) (v : yaml)
  : result (list A) DeError :=
  match v with
  | YSeq l => de_elems d l
  | _ => Err InvalidType
  end.

(** A field-less enum: a scalar naming the variant, or a one-entry mapping
    [{variant: ~}]; the name is compared byte for byte. *)
Definition de_unit_enum {A} (variant : string -> option A) (v : yaml)
  : result A DeError :=
  match v with
  | YScalar s =>
      match variant s with Some x => Ok x | None => Err (UnknownVariant s) end
  | YMap [(s, YScalar n)] =>
      if is_null_scalar n then
        match variant s with Some x => Ok x | None => Err (UnknownVariant s) end
      else Err InvalidType
  | _ => Err InvalidType
  end.

(** [enum Phase], [#[serde(rename_all = "camelCase")]]. *)
Inductive Phase : Type := Parse | Early | Resolution | Runtime.

Definition phase_variant (s : string) : option Phase :=
  if s =? "parse" then Some Parse
  else if s =? "early" then Some Early
  else if s =? "resolution" then Some Resolution
  else if s =? "runtime" then Some Runtime
  else None.

Definition de_phase : yaml -> result Phase DeError := de_unit_enum phase_variant.

(** [enum Flag], [#[serde(rename_all = "camelCase")]] with the aliases
    ["CanBlockIsFalse"], ["CanBlockIsTrue"] and ["non-deterministic"]. *)
Inductive Flag : Type :=
| OnlyStrict | NoStrict | Module | Raw | Async | Generated
| CanBlockIsFalse | CanBlockIsTrue | NonDeterministic.

Definition flag_variant (s : string) : option Flag :=
  if s =? "onlyStrict" then Some OnlyStrict
  else if s =? "noStrict" then Some NoStrict
  else if s =? "module" then Some Module
  else if s =? "raw" then Some Raw
  else if s =? "async" then Some Async
  else if s =? "generated" then Some Generated
  else if (s =? "canBlockIsFalse") || (s =? "CanBlockIsFalse") then Some CanBlockIsFalse
  else if (s =? "canBlockIsTrue") || (s =? "CanBlockIsTrue") then Some CanBlockIsTrue
  else if (s =? "nonDeterministic") || (s =? "non-deterministic") then Some NonDeterministic
  else None.

Definition de_flag : yaml -> result Flag DeError := de_unit_enum flag_variant.

(** [struct Negative { phase: Phase, #[serde(alias = "type")] kind: Option<String> }] *)
Record Negative : Type := {
  phase : Phase;
  kind : option string
}.

Inductive NegativeField : Type := NF_phase | NF_kind.

Definition negative_field (k : string) : option NegativeField :=
  if k =? "phase" then Some NF_phase
  else if (k =? "kind") || (k =? "type") then Some NF_kind
  else None.

(** The derived [visit_map]: one slot per field, a repeated field is an
    error, unknown keys are skipped, a missing [phase] is an error and a
    missing [kind] is [None]. *)
Fixpoint visit_negative (m : list (string * yaml))
    (ph : option Phase) (kd : option (option string)) : result Negative DeError :=
  match m with
  | [] =>
      match ph with
      | None => Err (MissingField "phase")
      | Some p => Ok {| phase := p; kind := match kd with Some k => k | None => None end |}
      end
  | (k, v) :: m' =>
      match negative_field k with
      | Some NF_phase =>
          match ph with
          | Some _ => Err (DuplicateField "phase")
          | None => match de_phase v with
                    | Ok p => visit_negative m' (Some p) kd
                    | Err e => Err e
                    end
          end
      | Some NF_kind =>
          match kd with
          | Some _ => Err (DuplicateField "kind")
          | None => match de_option de_string v with
                    | Ok x => visit_negative m' ph (Some x)
                    | Err e => Err e
                    end
          end
      | None => visit_negative m' ph kd
      end
  end.

Definition de_negative (v : yaml) : result Negative DeError :=
  match v with
  | YMap m => visit_negative m None None
  | _ => Err InvalidType
  end.

(** [struct Description]: seven [Option] fields and four
    [#[serde(default)] Vec] fields. *)
Record Description : Type := {
  id : option string;
  esid : option string;
  es5id : option string;
  es6id : option string;
  info : option string;
  description : option string;
  negative : option Negative;
  includes : list string;
  flags : list Flag;
  locale : list string;
  features : list string
}.

Inductive DescField : Type :=
| DF_id | DF_esid | DF_es5id | DF_es6id | DF_info | DF_description
| DF_negative | DF_includes | DF_flags | DF_locale | DF_features.

Definition desc_field_eqb (f g : DescField) : bool :=
  match f, g with
  | DF_id, DF_id | DF_esid, DF_esid | DF_es5id, DF_es5id
  | DF_es6id, DF_es6id | DF_info, DF_info
  | DF_description, DF_description | DF_negative, DF_negative
  | DF_includes, DF_includes | DF_flags, DF_flags
  | DF_locale, DF_locale | DF_features, DF_features => true
  | _, _ => false
  end.

(** The wire name of each field (no [rename] on [Description]). *)
Definition desc_field_name (f : DescField) : string :=
  match f with
  | DF_id => "id" | DF_esid => "esid" | DF_es5id => "es5id"
  | DF_es6id => "es6id" | DF_info => "info"
  | DF_description => "description" | DF_negative => "negative"
  | DF_includes => "includes" | DF_flags => "flags"
  | DF_locale => "locale" | DF_features => "features"
  end.

Definition desc_fields : list DescField :=
  [DF_id; DF_esid; DF_es5id; DF_es6id; DF_info; DF_description;
   DF_negative; DF_includes; DF_flags; DF_locale; DF_features].

(** The derived field identifier: a known name or an ignored key. *)
Definition desc_field (k : string) : option DescField :=
  find (fun f => desc_field_name f =? k) desc_fields.

(** A decoded field value, tagged with its Rust type. *)
Inductive FieldVal : Type :=
| FV_opt_string (x : option string)
| FV_opt_negative (x : option Negative)
| FV_strings (x : list string)
| FV_flags (x : list Flag).

Definition de_desc_field (f : DescField) (v : yaml) : result FieldVal DeError :=
  let wrap {A} (c : A -> FieldVal) (r : result A DeError) :=
    match r with Ok x => Ok (c x) | Err e => Err e end in
  match f with
  | DF_id | DF_esid | DF_es5id | DF_es6id | DF_info | DF_description =>
      wrap FV_opt_string (de_option de_string v)
  | DF_negative => wrap FV_opt_negative (de_option de_negative v)
  | DF_includes | DF_locale | DF_features => wrap FV_strings (de_vec de_string v)
  | DF_flags => wrap FV_flags (de_vec de_flag v)
  end.

(** The slots [__field0 .. __field10] of the derived [visit_map], as the
    list of the fields set so far with their values. *)
Definition DescSlots := list (DescField * FieldVal).

Fixpoint slot (f : DescField) (acc : DescSlots) : option FieldVal :=
  match acc with
  | [] => None
  | (g, x) :: acc' => if desc_field_eqb f g then Some x else slot f acc'
  end.

(** The derived [visit_map] of [Description]: a key seen twice is
    [duplicate_field], an unknown key is skipped, the first failing value
    ends the decoding. *)
Fixpoint visit_description (m : list (string * yaml)) (acc : DescSlots)
  : result DescSlots DeError :=
  match m with
  | [] => Ok acc
  | (k, v) :: m' =>
      match desc_field k with
      | None => visit_description m' acc
      | Some f =>
          match slot f acc with
          | Some _ => Err (DuplicateField (desc_field_name f))
          | None =>
              match de_desc_field f v with
              | Ok x => visit_description m' ((f, x) :: acc)
              | Err e => Err e
              end
          end
      end
  end.

(** After the loop: a missing [Option] field is [None] and a missing
    [#[serde(default)]] field is [Vec::default()]. *)
Definition slot_opt_string (f : DescField) (acc : DescSlots) : option string :=
  match slot f acc with Some (FV_opt_string x) => x | _ => None end.
Definition slot_strings (f : DescField) (acc : DescSlots) : list string :=
  match slot f acc with Some (FV_strings x) => x | _ => [] end.

Definition finish_description (acc : DescSlots) : Description :=
  {| id := slot_opt_string DF_id acc;
     esid := slot_opt_string DF_esid acc;
     es5id := slot_opt_string DF_es5id acc;
     es6id := slot_opt_string DF_es6id acc;
     info := slot_opt_string DF_info acc;
     description := slot_opt_string DF_description acc;
     negative := match slot DF_negative acc with
                 | Some (FV_opt_negative x) => x | _ => None end;
     includes := slot_strings DF_includes acc;
     flags := match slot DF_flags acc with
              | Some (FV_flags x) => x | _ => [] end;
     locale := slot_strings DF_locale acc;
     features := slot_strings DF_features acc |}.

Definition de_description (v : yaml) : result Description DeError :=
  match v with
  | YMap m =>
      match visit_description m [] with
      | Ok acc => Ok (finish_description acc)
      | Err e => Err e
      end
  | _ => Err InvalidType
  end.

(** ** [error.rs] *)

(** A path, as its components (each an OS byte string). *)
Definition PathBuf := list string.

Definition IoError := string.
Definition WalkError := string.
Definition RegexError := string.

(** [serde_yaml::Error]: a syntax error of the parser, or an error raised
    by a [Deserialize] implementation. *)
Inductive YamlError : Type :=
| YamlSyntax (msg : string)
| YamlDe (e : DeError).

Inductive Error : Type :=
| Io (e : IoError)
| WalkDir (e : WalkError)
| Yaml (e : YamlError)
| Regex (e : RegexError)
| DescriptionInvalid (p : PathBuf).

(** ** [Harness::find_yaml] *)

Definition find_yaml (content : string) (path : PathBuf) : result (nat * nat) Error :=
  match str_find content "/*---" with
  | None => Err (DescriptionInvalid path)
  | Some start =>
      match str_find content "---*/" with
      | None => Err (DescriptionInvalid path)
      | Some end_ => Ok (start + 5, end_)
      end
  end.

(** [struct Test] *)
Record Test : Type := {
  source : string;
  path : PathBuf;
  desc : Description;
  license : option (nat * nat)
}.

(** [Test::license]: the license text, sliced out of [source]. *)
Definition test_license (t : Test) : outcome (option string) :=
  match license t with
  | None => Ret None
  | Some (open, end_) =>
      match str_slice (source t) open end_ with
      | Ret s => Ret (Some s)
      | Panic => Panic
      end
  end.

(** [struct Harness] *)
Record Harness : Type := {
  test_paths : list PathBuf;
  idx : nat
}.

(** ** [Harness::new]: the corpus walk *)

(** [walkdir::DirEntry]: its path, its own file type (symlinks are not
    followed by the walk), and what [Path::is_dir] answers for its path
    ([std::fs::metadata] follows symlinks; [false] when that fails). *)
Inductive FileType : Type := FT_file | FT_dir | FT_symlink | FT_other.

Record DirEntry : Type := {
  entry_path : PathBuf;
  entry_file_type : FileType;
  entry_is_dir : bool
}.

(** [Path::file_name]: the last component, [None] for [..]. *)
Definition path_file_name (p : PathBuf) : option string :=
  match rev p with
  | [] => None
  | c :: _ => if c =? ".." then None else Some c
  end.

(** Split at the last ['.']: [rsplitn(2, '.')]. *)
Fixpoint rsplit_dot (s : string) : option (string * string) :=
  match s with
  | EmptyString => None
  | String c r =>
      match rsplit_dot r with
      | Some (b, a) => Some (String c b, a)
      | None => if Ascii.eqb c "."%char then Some (EmptyString, r) else None
      end
  end.

(** [Path::extension]: the text after the last dot, unless the name is
    [..], has no dot, or its only dot is its first byte. *)
Definition extension_of (name : string) : option string :=
  if name =? ".." then None
  else match rsplit_dot name with
       | None => None
       | Some (before, after) => if before =? "" then None else Some after
       end.

Definition path_extension (p : PathBuf) : option string :=
  match path_file_name p with
  | None => None
  | Some n => extension_of n
  end.

Definition byte_in (lo hi : nat) (c : ascii) : bool :=
  Nat.leb lo (nat_of_ascii c) && Nat.leb (nat_of_ascii c) hi.

(** [OsStr::to_str] succeeds exactly on well-formed UTF-8 (the table of
    well-formed byte sequences of the Unicode standard). *)
Fixpoint utf8_valid (s : string) : bool :=
  match s with
  | EmptyString => true
  | String c0 r =>
      if byte_in 0 127 c0 then utf8_valid r
      else if byte_in 194 223 c0 then
        match r with
        | String c1 r1 => byte_in 128 191 c1 && utf8_valid r1
        | _ => false
        end
      else if byte_in 224 239 c0 then
        match r with
        | String c1 (String c2 r2) =>
            (if Nat.eqb (nat_of_ascii c0) 224 then byte_in 160 191 c1
             else if Nat.eqb (nat_of_ascii c0) 237 then byte_in 128 159 c1
             else byte_in 128 191 c1)
            && byte_in 128 191 c2 && utf8_valid r2
        | _ => false
        end
      else if byte_in 240 244 c0 then
        match r with
        | String c1 (String c2 (String c3 r3)) =>
            (if Nat.eqb (nat_of_ascii c0) 240 then byte_in 144 191 c1
             else if Nat.eqb (nat_of_ascii c0) 244 then byte_in 128 143 c1
             else byte_in 128 191 c1)
            && byte_in 128 191 c2 && byte_in 128 191 c3 && utf8_valid r3
        | _ => false
        end
      else false
  end.

(** The closure given to [filter_map] in [Harness::new]; each [?] on an
    [Option] makes the closure return [None]. *)
Definition walk_filter (e : result DirEntry WalkError) : option (result PathBuf WalkError) :=
  match e with
  | Err e => Some (Err e)
  | Ok entry =>
      let p := entry_path entry in
      if entry_is_dir entry then None
      else match path_extension p with
           | None => None
           | Some ext =>
               if ext =? "js" then
                 match path_file_name p with
                 | None => None
                 | Some file_name =>
                     if utf8_valid file_name then
                       if ends_with file_name "_FIXTURE.js" then None
                       else Some (Ok p)
                     else None
                 end
               else None
           end
  end.

Fixpoint filter_map {A B} (f : A -> option B) (l : list A) : list B :=
  match l with
  | [] => []
  | x :: l' => match f x with
               | Some y => y :: filter_map f l'
               | None => filter_map f l'
               end
  end.

(** [collect::<Result<Vec<_>, _>>()]: stops at the first [Err]. *)
Fixpoint collect_results {A E} (l : list (result A E)) : result (list A) E :=
  match l with
  | [] => Ok []
  | Err e :: _ => Err e
  | Ok x :: l' => match collect_results l' with
                  | Ok xs => Ok (x :: xs)
                  | Err e => Err e
                  end
  end.

(** [Harness::new], given the entries yielded by
    [WalkDir::new(test_root).min_depth(1)] in traversal order. *)
Definition harness_new (walk : list (result DirEntry WalkError)) : result Harness Error :=
  match collect_results (filter_map walk_filter walk) with
  | Ok test_paths => Ok {| test_paths := test_paths; idx := 0 |}
  | Err e => Err (WalkDir e)
  end.

(** ** Per-entry extraction and the iterator *)

Section Extraction.

(** [serde_yaml]'s parser: the YAML value of a text, or a syntax error. *)
Variable yaml_parse : string -> result yaml string.

(** [regex::Regex::new] on the fixed license pattern of [find_license]:
    its [find] (start and end of the first match), or a compile error.
    The pattern is a valid literal, so the program only ever has [Ok find];
    the [Err] case marks where the [?] of [find_license] sits. *)
Variable license_regex : result (string -> option (nat * nat)) RegexError.

(** [std::fs::read_to_string]. *)
Variable read_to_string : PathBuf -> result string IoError.

(** [serde_yaml::from_str::<Description>] *)
Definition yaml_from_str (s : string) : result Description YamlError :=
  match yaml_parse s with
  | Err msg => Err (YamlSyntax msg)
  | Ok v => match de_description v with
            | Ok d => Ok d
            | Err e => Err (YamlDe e)
            end
  end.

(** [Harness::find_license]: the pattern is compiled on every call. *)
Definition find_license (content : string) : result (option (nat * nat)) Error :=
  match license_regex with
  | Err e => Err (Regex e)
  | Ok find => Ok (find content)
  end.

(** [Harness::create_test] *)
Definition create_test (contents : string) (path : PathBuf) : outcome (result Test Error) :=
  match find_yaml contents path with
  | Err e => Ret (Err e)
  | Ok (yaml_start, yaml_end) =>
      match str_slice contents yaml_start yaml_end with
      | Panic => Panic
      | Ret y =>
          let yaml := replace_cr y in
          match find_license contents with
          | Err e => Ret (Err e)
          | Ok license =>
              match yaml_from_str yaml with
              | Err e => Ret (Err (Yaml e))
              | Ok desc =>
                  Ret (Ok {| desc := desc; license := license;
                             path := path; source := contents |})
              end
          end
      end
  end.

(** [Harness::create_test_from_file] *)
Definition create_test_from_file (p : PathBuf) : outcome (result Test Error) :=
  match read_to_string p with
  | Err e => Ret (Err (Io e))
  | Ok contents => create_test contents p
  end.

(** [<Harness as Iterator>::next]: the item and the updated harness. *)
Definition next (h : Harness) : outcome (option (result Test Error) * Harness) :=
  if Nat.leb (length (test_paths h)) (idx h) then Ret (None, h)
  else match nth_error (test_paths h) (idx h) with
       | None => Ret (None, h)
       | Some p =>
           let h' := {| test_paths := test_paths h; idx := S (idx h) |} in
           match create_test_from_file p with
           | Ret r => Ret (Some r, h')
           | Panic => Panic
           end
       end.

(** [n] pulls from [h] (a [for] loop over the iterator, cut after [n]
    items): the items in order, stopping at the first [None]. *)
Fixpoint pulls (n : nat) (h : Harness) : outcome (list (result Test Error) * Harness) :=
  match n with
  | 0 => Ret ([], h)
  | S n' =>
      match next h with
      | Panic => Panic
      | Ret (None, h') => Ret ([], h')
      | Ret (Some r, h') =>
          match pulls n' h' with
          | Panic => Panic
          | Ret (rs, h'') => Ret (r :: rs, h'')
          end
      end
  end.

End Extraction.

(** ** Helper definitions for the statements *)

(** [pat] occurs somewhere in [s]. *)
Definition occurs (pat s : string) : Prop :=
  exists a b, s = (a ++ pat ++ b)%string.

(** The wire spelling of each [Phase] variant. *)
Definition phase_wire (p : Phase) : string :=
  match p with
  | Parse => "parse" | Early => "early"
  | Resolution => "resolution" | Runtime => "runtime"
  end.

(** Remove every entry with key [k] from a YAML mapping. *)
Definition remove_key (k : string) (m : list (string * yaml)) : list (string * yaml) :=
  filter (fun kv => negb (fst kv =? k)) m.

(** The value of one field of a [Description], tagged with its type. *)
Definition desc_get (f : DescField) (d : Description) : FieldVal :=
  match f with
  | DF_id => FV_opt_string (id d)
  | DF_esid => FV_opt_string (esid d)
  | DF_es5id => FV_opt_string (es5id d)
  | DF_es6id => FV_opt_string (es6id d)
  | DF_info => FV_opt_string (info d)
  | DF_description => FV_opt_string (description d)
  | DF_negative => FV_opt_negative (negative d)
  | DF_includes => FV_strings (includes d)
  | DF_flags => FV_flags (flags d)
  | DF_locale => FV_strings (locale d)
  | DF_features => FV_strings (features d)
  end.

(** An absent optional is [None], an absent collection is empty. *)
Definition field_default (f : DescField) : FieldVal :=
  match f with
  | DF_id | DF_esid | DF_es5id | DF_es6id | DF_info | DF_description =>
      FV_opt_string None
  | DF_negative => FV_opt_negative None
  | DF_includes | DF_locale | DF_features => FV_strings []
  | DF_flags => FV_flags []
  end.

Definition empty_description : Description :=
  {| id := None; esid := None; es5id := None; es6id := None; info := None;
     description := None; negative := None; includes := []; flags := [];
     locale := []; features := [] |}.

(** The paths [Harness::new] keeps, as the claim's filter reads on an entry. *)
Definition js_test_entry (d : DirEntry) : bool :=
  negb (entry_is_dir d) &&
  match path_extension (entry_path d) with
  | Some ext => ext =? "js"
  | None => false
  end &&
  match path_file_name (entry_path d) with
  | Some n => utf8_valid n && negb (ends_with n "_FIXTURE.js")
  | None => false
  end.

(** ** Lemmas on byte strings *)

Lemma str_app_assoc (a b c : string) :
  (a ++ (b ++ c) = (a ++ b) ++ c)%string.
Proof. induction a as [|x a IH]; simpl; [reflexivity | now rewrite IH]. Qed.

Lemma str_app_nil_r (a : string) : (a ++ "")%string = a.
Proof. induction a as [|x a IH]; simpl; [reflexivity | now rewrite IH]. Qed.

Lemma str_length_app (a b : string) :
  String.length (a ++ b) = String.length a + String.length b.
Proof. induction a as [|x a IH]; simpl; [reflexivity | now rewrite IH]. Qed.

Lemma prefix_app_self (pat b : string) : String.prefix pat (pat ++ b) = true.
Proof.
  induction pat as [|c pat IH]; simpl; [now destruct b|].
  destruct (ascii_dec c c) as [_|n]; [exact IH | now elim n].
Qed.

Lemma prefix_true_app (pat s : string) :
  String.prefix pat s = true -> exists b, s = (pat ++ b)%string.
Proof.
  revert s; induction pat as [|c pat IH]; intros s H; simpl.
  - now exists s.
  - destruct s as [|d s]; simpl in H; [discriminate|].
    destruct (ascii_dec c d) as [->|_]; [|discriminate].
    destruct (IH s H) as [b ->]. now exists b.
Qed.

Lemma find_from_eq (pat s : string) (i : nat) :
  find_from pat s i =
  if String.prefix pat s then Some i
  else match s with
       | EmptyString => None
       | String _ s' => find_from pat s' (S i)
       end.
Proof. destruct s; reflexivity. Qed.

Lemma find_from_absent (pat s : string) (i : nat) :
  ~ occurs pat s -> find_from pat s i = None.
Proof.
  revert i; induction s as [|c s IH]; intros i Hn; rewrite find_from_eq.
  - destruct (String.prefix pat "") eqn:E; [|reflexivity].
    exfalso; apply Hn. destruct (prefix_true_app _ _ E) as [b Hb].
    exists "", b. exact Hb.
  - destruct (String.prefix pat (String c s)) eqn:E.
    + exfalso; apply Hn. destruct (prefix_true_app _ _ E) as [b Hb].
      exists "", b. exact Hb.
    + apply IH. intros [a [b Hab]]. apply Hn.
      exists (String c a), b. simpl. now rewrite Hab.
Qed.

Lemma find_from_present (pat s : string) (i : nat) :
  occurs pat s -> exists j, find_from pat s i = Some j.
Proof.
  intros [a [b ->]]. revert i; induction a as [|c a IH]; intros i;
    rewrite find_from_eq.
  - simpl. rewrite prefix_app_self. eauto.
  - destruct (String.prefix pat (String c a ++ pat ++ b)); simpl; eauto.
Qed.

Lemma str_find_None_iff (s pat : string) :
  str_find s pat = None <-> ~ occurs pat s.
Proof.
  unfold str_find; split.
  - intros H Ho. destruct (find_from_present pat s 0 Ho) as [j Hj].
    congruence.
  - apply find_from_absent.
Qed.

(** A match that starts inside [a] is excluded, the search resumes after it. *)
Lemma find_from_skip (pat a s : string) (i : nat) :
  (forall a1 a2, a = (a1 ++ a2)%string -> a2 <> ""%string ->
                 String.prefix pat (a2 ++ s) = false) ->
  find_from pat (a ++ s) i = find_from pat s (i + String.length a).
Proof.
  revert i; induction a as [|c a IH]; intros i H.
  - simpl. now rewrite Nat.add_0_r.
  - pose proof (H "" (String c a) eq_refl ltac:(discriminate)) as H0.
    rewrite find_from_eq. rewrite H0. simpl.
    rewrite IH; [f_equal; lia|].
    intros a1 a2 Ha Hne. apply (H (String c a1) a2); [simpl; now rewrite Ha | exact Hne].
Qed.

Lemma prefix_app_long (pat a2 t : string) :
  String.length pat <= String.length a2 ->
  String.prefix pat (a2 ++ t) = String.prefix pat a2.
Proof.
  revert a2; induction pat as [|c pat IH]; intros a2 Hl.
  - destruct a2, t; reflexivity.
  - destruct a2 as [|d a2]; simpl in Hl; [lia|]. simpl.
    destruct (ascii_dec c d); [apply IH; lia | reflexivity].
Qed.

Lemma prefix_app_short (pat a2 t : string) :
  String.length a2 <= String.length pat ->
  String.prefix pat (a2 ++ t) = true ->
  exists q, pat = (a2 ++ q)%string /\ String.prefix q t = true.
Proof.
  revert pat; induction a2 as [|c a2 IH]; intros pat Hl H.
  - exists pat. split; [reflexivity | exact H].
  - destruct pat as [|d pat]; simpl in Hl; [lia|]. simpl in H.
    destruct (ascii_dec d c) as [->|_]; [|discriminate].
    destruct (IH pat ltac:(lia) H) as [q [-> Hq]].
    exists q. split; [reflexivity | exact Hq].
Qed.

Fixpoint drop_str (k : nat) (s : string) : string :=
  match k, s with
  | 0, _ => s
  | S k', String _ s' => drop_str k' s'
  | S _, EmptyString => EmptyString
  end.

Lemma drop_str_app (a q : string) : drop_str (String.length a) (a ++ q) = q.
Proof. induction a as [|c a IH]; [reflexivity | exact IH]. Qed.

(** No proper suffix of [pat] is a prefix of it: two matches of [pat]
    cannot overlap. *)
Definition border_free (pat : string) : Prop :=
  forall k, 0 < k < String.length pat -> String.prefix (drop_str k pat) pat = false.

Lemma find_from_first (pat a rest : string) (i : nat) :
  border_free pat -> ~ occurs pat a ->
  find_from pat (a ++ pat ++ rest) i = Some (i + String.length a).
Proof.
  intros Hb Hn. rewrite find_from_skip.
  - rewrite find_from_eq, prefix_app_self. reflexivity.
  - intros a1 a2 Ha Hne.
    destruct (String.prefix pat (a2 ++ pat ++ rest)) eqn:E; [|reflexivity].
    exfalso.
    destruct (Nat.le_gt_cases (String.length pat) (String.length a2)) as [Hle|Hgt].
    + rewrite prefix_app_long in E by exact Hle.
      destruct (prefix_true_app _ _ E) as [b ->].
      apply Hn. exists a1, b. exact Ha.
    + destruct (prefix_app_short pat a2 (pat ++ rest) ltac:(lia) E) as [q [Hq Hpq]].
      assert (Hlq : String.length pat = String.length a2 + String.length q)
        by (rewrite Hq at 1; apply str_length_app).
      rewrite prefix_app_long in Hpq by lia.
      assert (Hd : drop_str (String.length a2) pat = q)
        by (rewrite Hq at 1; apply drop_str_app).
      assert (0 < String.length a2)
        by (destruct a2; [now elim Hne | simpl; lia]).
      specialize (Hb (String.length a2) ltac:(lia)).
      rewrite Hd in Hb. congruence.
Qed.

Lemma open_delim_border_free : border_free "/*---".
Proof. intros k Hk; simpl in Hk. do 5 (destruct k as [|k]; [try lia; reflexivity|]). lia. Qed.

Lemma close_delim_border_free : border_free "---*/".
Proof. intros k Hk; simpl in Hk. do 5 (destruct k as [|k]; [try lia; reflexivity|]). lia. Qed.

(** ** Claims *)

(** C1 (counterexample): the phase is not matched up to letter case; the
    metadata [negative: {phase: PARSE}] fails with an unknown variant. *)
Lemma phase_uppercase_rejected :
  de_phase (YScalar "PARSE") = Err (UnknownVariant "PARSE") /\
  de_phase (YScalar "Parse") = Err (UnknownVariant "Parse") /\
  de_description (YMap [("negative", YMap [("phase", YScalar "PARSE")])])
    = Err (UnknownVariant "PARSE").
Proof. repeat split; reflexivity. Qed.

(** C1 (amended): a phase scalar decodes to a [Phase] exactly when it is
    that variant's camelCase spelling, compared byte for byte; any other
    spelling fails with an unknown-variant error naming it. *)
Theorem de_phase_exact_spelling (s : string) :
  (forall p, de_phase (YScalar s) = Ok p <-> s = phase_wire p) /\
  ((forall p, s <> phase_wire p) -> de_phase (YScalar s) = Err (UnknownVariant s)).
Proof.
  unfold de_phase, de_unit_enum, phase_variant. split; [split|].
  - destruct (String.eqb_spec s "parse") as [->|_];
      [intros H; injection H as <-; reflexivity|].
    destruct (String.eqb_spec s "early") as [->|_];
      [intros H; injection H as <-; reflexivity|].
    destruct (String.eqb_spec s "resolution") as [->|_];
      [intros H; injection H as <-; reflexivity|].
    destruct (String.eqb_spec s "runtime") as [->|_];
      [intros H; injection H as <-; reflexivity|].
    discriminate.
  - intros ->. destruct p; reflexivity.
  - intros Hn.
    destruct (String.eqb_spec s "parse") as [->|_]; [now elim (Hn Parse)|].
    destruct (String.eqb_spec s "early") as [->|_]; [now elim (Hn Early)|].
    destruct (String.eqb_spec s "resolution") as [->|_]; [now elim (Hn Resolution)|].
    destruct (String.eqb_spec s "runtime") as [->|_]; [now elim (Hn Runtime)|].
    reflexivity.
Qed.

Lemma de_phase_exact_spelling_witness :
  de_phase (YScalar "Parse") = Err (UnknownVariant "Parse").
Proof.
  apply (proj2 (de_phase_exact_spelling "Parse")).
  intros p; destruct p; discriminate.
Defined.

(** C3 (failing input): on the text [/*---*/] the opening delimiter is
    found at 0 and the closing one at 2, so [create_test] slices
    [contents[5..2]] and panics, whatever the parser, regex and path. *)
Theorem create_test_panics_on_overlap
    (yaml_parse : string -> result yaml string)
    (license_regex : result (string -> option (nat * nat)) RegexError)
    (p : PathBuf) :
  find_yaml "/*---*/" p = Ok (5, 2) /\
  create_test yaml_parse license_regex "/*---*/" p = Panic.
Proof. split; reflexivity. Qed.

(** C4 (failing input): a [---*/] earlier in the text than the metadata
    block is taken as the block's end; for [// ---*/ LF /*--- LF id: a LF ---*/]
    the block's span is (14, 21), whose YAML value [{id: a}] decodes, but
    [find_yaml] returns (14, 3), and [create_test] panics slicing it. *)
Lemma find_yaml_earlier_close :
  find_yaml "// ---*/
/*---
id: a
---*/" [] = Ok (14, 3) /\
  find_yaml "// ---*/
/*---
id: a
---*/" [] <> Ok (14, 21) /\
  String.length "// ---*/
" = 9 /\ String.length "
id: a
" = 7 /\
  (exists d, de_description (YMap [("id", YScalar "a")]) = Ok d) /\
  (forall yaml_parse license_regex,
     create_test yaml_parse license_regex "// ---*/
/*---
id: a
---*/" [] = Panic).
Proof.
  split; [reflexivity|]. split; [discriminate|].
  split; [reflexivity|]. split; [reflexivity|]. split; [eexists; reflexivity|].
  intros; reflexivity.
Qed.

(** [find_yaml] pairs the end of the first [/*---] with the start of the
    first [---*/]; for a text [P /*--- X ---*/ S] where [P] holds no
    [/*---] and [P /*--- X] holds no [---*/], that is exactly the span of
    [X]. *)
Theorem find_yaml_span (P X S : string) (p : PathBuf) :
  ~ occurs "/*---" P ->
  ~ occurs "---*/" (P ++ "/*---" ++ X) ->
  find_yaml (P ++ "/*---" ++ X ++ "---*/" ++ S) p
    = Ok (String.length P + 5, String.length P + 5 + String.length X).
Proof.
  intros Ho Hc. unfold find_yaml, str_find.
  rewrite (find_from_first "/*---" P (X ++ "---*/" ++ S) 0 open_delim_border_free Ho).
  rewrite (str_app_assoc "/*---" X), (str_app_assoc P ("/*---" ++ X)).
  rewrite (find_from_first "---*/" (P ++ "/*---" ++ X) S 0 close_delim_border_free Hc).
  rewrite !str_length_app. simpl. f_equal. f_equal; lia.
Qed.

Lemma find_yaml_span_witness :
  find_yaml ("// header
" ++ "/*---" ++ "
id: a
" ++ "---*/" ++ "
let x;") [] = Ok (15, 22).
Proof.
  apply (find_yaml_span "// header
" "
id: a
" "
let x;" []); apply str_find_None_iff; reflexivity.
Defined.

(** C5: if the opening or the closing delimiter is absent (or both),
    [find_yaml] fails with [DescriptionInvalid] carrying the path. *)
Theorem find_yaml_missing_delimiter (content : string) (p : PathBuf) :
  ~ occurs "/*---" content \/ ~ occurs "---*/" content ->
  find_yaml content p = Err (DescriptionInvalid p).
Proof.
  intros [H|H]; apply str_find_None_iff in H; unfold find_yaml; rewrite H;
    [reflexivity|].
  destruct (str_find content "/*---"); reflexivity.
Qed.

Lemma find_yaml_missing_delimiter_witness :
  find_yaml "/*---
id: a
" ["t.js"] = Err (DescriptionInvalid ["t.js"]).
Proof.
  apply find_yaml_missing_delimiter. right. apply str_find_None_iff. reflexivity.
Defined.

(** C10: [flags: [noStrict]] decodes to exactly [[NoStrict]]; the
    [negative] mapping [{phase: parse, type: Exception}] decodes to phase
    [Parse] and kind ["Exception"], and the key [type] decodes exactly as
    the key [kind]. The YAML values are those [serde_yaml] builds for the
    two documents. *)
Theorem decode_flags_and_negative_alias :
  (exists d, de_description (YMap [("flags", YSeq [YScalar "noStrict"])]) = Ok d
             /\ flags d = [NoStrict]) /\
  (exists d, de_description
               (YMap [("negative", YMap [("phase", YScalar "parse");
                                         ("type", YScalar "Exception")])]) = Ok d
             /\ negative d = Some {| phase := Parse; kind := Some "Exception" |}) /\
  (forall ph v, de_negative (YMap [("phase", ph); ("type", v)])
                = de_negative (YMap [("phase", ph); ("kind", v)])).
Proof.
  split; [eexists; split; reflexivity|].
  split; [eexists; split; reflexivity|].
  intros ph v. reflexivity.
Qed.

(** ** Lemmas on the [Description] visitor *)

Lemma desc_field_eqb_reflect (f g : DescField) : reflect (f = g) (desc_field_eqb f g).
Proof. destruct f, g; constructor; congruence. Qed.

Lemma desc_field_name_of (k : string) (g : DescField) :
  desc_field k = Some g -> desc_field_name g = k.
Proof.
  unfold desc_field. intros H. apply find_some in H as [_ H].
  now apply String.eqb_eq in H.
Qed.

Definition drop_slot (f : DescField) (acc : DescSlots) : DescSlots :=
  filter (fun gx => negb (desc_field_eqb f (fst gx))) acc.

Lemma slot_drop (f g : DescField) (acc : DescSlots) :
  slot g (drop_slot f acc) = if desc_field_eqb g f then None else slot g acc.
Proof.
  induction acc as [|[h x] acc IH]; simpl.
  - now destruct (desc_field_eqb g f).
  - destruct (desc_field_eqb_reflect f h) as [<-|Hfh]; simpl.
    + rewrite IH. destruct (desc_field_eqb_reflect g f); reflexivity.
    + destruct (desc_field_eqb_reflect g h) as [->|Hgh].
      * destruct (desc_field_eqb_reflect h f); [congruence | reflexivity].
      * exact IH.
Qed.

Lemma visit_description_remove (f : DescField) (m : list (string * yaml))
    (acc acc' : DescSlots) :
  visit_description m acc = Ok acc' ->
  visit_description (remove_key (desc_field_name f) m) (drop_slot f acc)
    = Ok (drop_slot f acc').
Proof.
  revert acc; induction m as [|[k v] m IH]; intros acc H; simpl in *.
  - congruence.
  - destruct (String.eqb_spec k (desc_field_name f)) as [->|Hk]; simpl.
    + assert (Hf : desc_field (desc_field_name f) = Some f) by (destruct f; reflexivity).
      rewrite Hf in H.
      destruct (slot f acc); [discriminate|].
      destruct (de_desc_field f v) as [x|]; [|discriminate].
      specialize (IH _ H). simpl in IH.
      destruct (desc_field_eqb_reflect f f) as [_|n]; [exact IH | now elim n].
    + destruct (desc_field k) as [g|] eqn:Eg; [|exact (IH _ H)].
      apply desc_field_name_of in Eg.
      assert (Hgf : g <> f) by congruence.
      rewrite slot_drop.
      destruct (desc_field_eqb_reflect g f) as [|_]; [contradiction|].
      destruct (slot g acc); [discriminate|].
      destruct (de_desc_field g v) as [x|]; [|discriminate].
      specialize (IH _ H). simpl in IH.
      destruct (desc_field_eqb_reflect f g) as [->|_]; [contradiction | exact IH].
Qed.

Lemma visit_description_absent (f : DescField) (m : list (string * yaml))
    (acc acc' : DescSlots) :
  visit_description m acc = Ok acc' ->
  ~ In (desc_field_name f) (map fst m) ->
  slot f acc' = slot f acc.
Proof.
  revert acc; induction m as [|[k v] m IH]; intros acc H Hn; simpl in *.
  - congruence.
  - destruct (desc_field k) as [g|] eqn:Eg; [|exact (IH _ H (fun h => Hn (or_intror h)))].
    apply desc_field_name_of in Eg.
    destruct (slot g acc); [discriminate|].
    destruct (de_desc_field g v) as [x|]; [|discriminate].
    rewrite (IH _ H (fun h => Hn (or_intror h))). simpl.
    destruct (desc_field_eqb_reflect f g) as [->|_]; [|reflexivity].
    exfalso. apply Hn. left. symmetry. exact Eg.
Qed.

Lemma finish_slot_none (g : DescField) (acc : DescSlots) :
  slot g acc = None -> desc_get g (finish_description acc) = field_default g.
Proof.
  intros H. destruct g; simpl; unfold slot_opt_string, slot_strings; rewrite H; reflexivity.
Qed.

Lemma finish_slot_same (g : DescField) (acc1 acc2 : DescSlots) :
  slot g acc1 = slot g acc2 ->
  desc_get g (finish_description acc1) = desc_get g (finish_description acc2).
Proof.
  intros H. destruct g; simpl; unfold slot_opt_string, slot_strings; rewrite H; reflexivity.
Qed.

(** C9: absence of keys never makes decoding fail. The empty mapping
    decodes to all-[None] optionals and empty collections; a key absent
    from a decodable mapping leaves its field at [None] or empty; and
    removing any of the eleven keys from a decodable mapping keeps it
    decodable, with only that field reset. *)
Theorem description_absent_keys_default :
  de_description (YMap []) = Ok empty_description /\
  (forall m d f, de_description (YMap m) = Ok d ->
     ~ In (desc_field_name f) (map fst m) ->
     desc_get f d = field_default f) /\
  (forall m d f, de_description (YMap m) = Ok d ->
     exists d', de_description (YMap (remove_key (desc_field_name f) m)) = Ok d' /\
                desc_get f d' = field_default f /\
                forall g, g <> f -> desc_get g d' = desc_get g d).
Proof.
  split; [reflexivity|]. split.
  - intros m d f H Hn. simpl in H.
    destruct (visit_description m []) as [acc|] eqn:E; [|discriminate].
    injection H as <-. apply finish_slot_none.
    rewrite (visit_description_absent f m [] acc E Hn). reflexivity.
  - intros m d f H. simpl in H.
    destruct (visit_description m []) as [acc|] eqn:E; [|discriminate].
    injection H as <-.
    pose proof (visit_description_remove f m [] acc E) as Hr. simpl in Hr.
    exists (finish_description (drop_slot f acc)). simpl. rewrite Hr.
    split; [reflexivity|]. split.
    + apply finish_slot_none. rewrite slot_drop.
      destruct (desc_field_eqb_reflect f f) as [_|n]; [reflexivity | now elim n].
    + intros g Hg. apply finish_slot_same. rewrite slot_drop.
      destruct (desc_field_eqb_reflect g f); [contradiction | reflexivity].
Qed.

Lemma description_absent_keys_default_witness :
  desc_get DF_es5id (finish_description [(DF_id, FV_opt_string (Some "x"))])
    = FV_opt_string None /\
  exists d', de_description (YMap (remove_key "flags"
                 [("id", YScalar "x"); ("flags", YSeq [YScalar "raw"])])) = Ok d' /\
             desc_get DF_flags d' = FV_flags [] /\
             forall g, g <> DF_flags -> desc_get g d' =
               desc_get g (finish_description [(DF_flags, FV_flags [Raw]);
                                               (DF_id, FV_opt_string (Some "x"))]).
Proof.
  split.
  - apply (proj1 (proj2 description_absent_keys_default) [("id", YScalar "x")]
             (finish_description [(DF_id, FV_opt_string (Some "x"))]) DF_es5id);
      [reflexivity | simpl; intros [H|H]; [discriminate | exact H]].
  - exact (proj2 (proj2 description_absent_keys_default)
             [("id", YScalar "x"); ("flags", YSeq [YScalar "raw"])]
             (finish_description [(DF_flags, FV_flags [Raw]);
                                  (DF_id, FV_opt_string (Some "x"))])
             DF_flags eq_refl).
Defined.

(** ** Lemmas on the walk *)

Lemma walk_filter_ok (d : DirEntry) :
  walk_filter (Ok d) = if js_test_entry d then Some (Ok (entry_path d)) else None.
Proof.
  unfold walk_filter, js_test_entry.
  destruct (entry_is_dir d); [reflexivity|]. simpl.
  destruct (path_extension (entry_path d)) as [ext|]; [|reflexivity].
  destruct (ext =? "js"); [|reflexivity].
  destruct (path_file_name (entry_path d)) as [n|]; [|reflexivity].
  destruct (utf8_valid n), (ends_with n "_FIXTURE.js"); reflexivity.
Qed.

Lemma collect_walk_ok (entries : list DirEntry) :
  collect_results (filter_map walk_filter (map Ok entries))
    = Ok (map entry_path (filter js_test_entry entries)).
Proof.
  induction entries as [|d entries IH]; [reflexivity|]. cbn [map filter_map filter].
  rewrite walk_filter_ok. destruct (js_test_entry d); simpl; rewrite IH; reflexivity.
Qed.

Lemma collect_walk_first_error (pre post : list (result DirEntry WalkError)) (e : WalkError) :
  (forall x, In x pre -> exists d, x = Ok d) ->
  collect_results (filter_map walk_filter ((pre ++ Err e :: post)%list)) = Err e.
Proof.
  induction pre as [|x pre IH]; intros Hpre; [reflexivity|].
  destruct (Hpre x (or_introl eq_refl)) as [d ->]. cbn [app filter_map].
  rewrite walk_filter_ok.
  assert (Hrest : forall y, In y pre -> exists d, y = Ok d)
    by (intros y Hy; exact (Hpre y (or_intror Hy))).
  destruct (js_test_entry d); simpl; rewrite (IH Hrest); reflexivity.
Qed.

Lemma NoDup_map_filter {A B} (f : A -> B) (g : A -> bool) (l : list A) :
  NoDup (map f l) -> NoDup (map f (filter g l)).
Proof.
  induction l as [|x l IH]; simpl; intros H; [constructor|].
  apply NoDup_cons_iff in H as [Hx Hl].
  destruct (g x); simpl; [|exact (IH Hl)].
  constructor; [|exact (IH Hl)].
  intros Hin. apply Hx. apply in_map_iff in Hin as [y [Hy Hin]].
  apply filter_In in Hin as [Hin _]. rewrite <- Hy. now apply in_map.
Qed.

(** C2: the license pattern is never a failure of [Harness::new], and
    with the pattern compiled (the fixed literal of [find_license] is a
    valid pattern, so [Regex::new] gives [Ok find]) no per-entry step,
    [create_test], [create_test_from_file] or a pull of the iterator,
    ever returns the [Regex] error, whatever the file text. *)
Theorem license_pattern_compiled_per_entry :
  (forall walk e, harness_new walk <> Err (Regex e)) /\
  (forall yaml_parse find contents p re,
     create_test yaml_parse (Ok find) contents p <> Ret (Err (Regex re))) /\
  (forall yaml_parse find read p re,
     create_test_from_file yaml_parse (Ok find) read p <> Ret (Err (Regex re))) /\
  (forall yaml_parse find read h h' re,
     next yaml_parse (Ok find) read h <> Ret (Some (Err (Regex re)), h')).
Proof.
  assert (Hc : forall yaml_parse find contents p re,
     create_test yaml_parse (Ok find) contents p <> Ret (Err (Regex re))).
  { intros yaml_parse find contents p re. unfold create_test, find_yaml.
    destruct (str_find contents "/*---") as [a|]; [|discriminate].
    destruct (str_find contents "---*/") as [b|]; [|discriminate].
    destruct (str_slice contents (a + 5) b); [|discriminate].
    unfold find_license. destruct (yaml_from_str _ _); discriminate. }
  assert (Hf : forall yaml_parse find read p re,
     create_test_from_file yaml_parse (Ok find) read p <> Ret (Err (Regex re))).
  { intros yaml_parse find read p re. unfold create_test_from_file.
    destruct (read p); [apply Hc | discriminate]. }
  split; [|split; [exact Hc|split; [exact Hf|]]].
  - intros walk e. unfold harness_new.
    destruct (collect_results _); discriminate.
  - intros yaml_parse find read h h' re. unfold next.
    destruct (Nat.leb _ _); [discriminate|].
    destruct (nth_error _ _) as [p|]; [|discriminate].
    specialize (Hf yaml_parse find read p re).
    destruct (create_test_from_file _ _ _ p) as [r|]; [|discriminate].
    intros H; injection H as -> _. exact (Hf eq_refl).
Qed.

Lemma license_pattern_compiled_per_entry_witness :
  create_test (fun _ => Ok (YMap [])) (Ok (fun _ => Some (0, 1)))
    "/*---
id: a
---*/" ["t.js"] <> Ret (Err (Regex "unclosed group")).
Proof.
  exact (proj1 (proj2 license_pattern_compiled_per_entry)
           (fun _ => Ok (YMap [])) (fun _ => Some (0, 1)) "/*---
id: a
---*/" ["t.js"] "unclosed group").
Defined.

(** C6 (counterexample): a regular file named [0xFF ".js"] has the
    extension [js] and no fixture suffix, but its name is not UTF-8, so
    [to_str()?] drops it and the path list is empty. *)
Lemma non_utf8_js_file_dropped :
  path_extension ["test"; String (ascii_of_nat 255) ".js"] = Some "js" /\
  ends_with (String (ascii_of_nat 255) ".js") "_FIXTURE.js" = false /\
  harness_new [Ok {| entry_path := ["test"; String (ascii_of_nat 255) ".js"];
                     entry_file_type := FT_file; entry_is_dir := false |}]
    = Ok {| test_paths := []; idx := 0 |}.
Proof. repeat split; reflexivity. Qed.

(** C6 (amended): on a walk without errors, the path list is, in walk
    order, the paths of the entries that are not directories (per
    [Path::is_dir]), whose extension is [js], whose file name is valid
    UTF-8 and does not end with [_FIXTURE.js]; each entry contributes its
    path once, so paths the walk yields once appear once. *)
Theorem harness_new_paths (entries : list DirEntry) :
  harness_new (map Ok entries)
    = Ok {| test_paths := map entry_path (filter js_test_entry entries); idx := 0 |} /\
  (NoDup (map entry_path entries) ->
   NoDup (map entry_path (filter js_test_entry entries))).
Proof.
  split.
  - unfold harness_new. now rewrite collect_walk_ok.
  - apply NoDup_map_filter.
Qed.

Lemma harness_new_paths_witness :
  NoDup (map entry_path (filter js_test_entry
    [{| entry_path := ["t"; "a.js"]; entry_file_type := FT_file; entry_is_dir := false |};
     {| entry_path := ["t"; "b_FIXTURE.js"]; entry_file_type := FT_file; entry_is_dir := false |};
     {| entry_path := ["t"; "sub.js"]; entry_file_type := FT_dir; entry_is_dir := true |}])).
Proof.
  apply (proj2 (harness_new_paths _)).
  simpl. constructor; [simpl; intros [H|[H|[]]]; discriminate|].
  constructor; [simpl; intros [H|[]]; discriminate|].
  constructor; [simpl; intros []|constructor].
Defined.

(** C7: if the walk reports an error, [Harness::new] fails with
    [WalkDir] of the first error, whatever the walk yields after it: no
    harness and no path list is produced. *)
Theorem harness_new_fails_fast (walk : list (result DirEntry WalkError)) (e : WalkError) :
  In (Err e) walk ->
  exists pre e0 post,
    walk = (pre ++ Err e0 :: post)%list /\
    (forall x, In x pre -> exists d, x = Ok d) /\
    harness_new walk = Err (WalkDir e0) /\
    (forall post', harness_new ((pre ++ Err e0 :: post')%list) = Err (WalkDir e0)).
Proof.
  intros Hin.
  assert (Hsplit : exists pre e0 post, walk = (pre ++ Err e0 :: post)%list /\
                     (forall x, In x pre -> exists d, x = Ok d)).
  { induction walk as [|x walk IH]; [destruct Hin|].
    destruct x as [d|e1].
    - destruct Hin as [Hx|Hin]; [discriminate|].
      destruct (IH Hin) as [pre [e0 [post [-> Hpre]]]].
      exists (Ok d :: pre), e0, post. split; [reflexivity|].
      intros y [<-|Hy]; [now exists d | exact (Hpre y Hy)].
    - exists [], e1, walk. split; [reflexivity | intros y []]. }
  destruct Hsplit as [pre [e0 [post [Hw Hpre]]]].
  assert (Hall : forall post', harness_new ((pre ++ Err e0 :: post')%list) = Err (WalkDir e0))
    by (intros post'; unfold harness_new; now rewrite collect_walk_first_error).
  exists pre, e0, post. split; [exact Hw|]. split; [exact Hpre|].
  split; [rewrite Hw; apply Hall | exact Hall].
Qed.

Lemma harness_new_fails_fast_witness :
  exists pre e0 post,
    [Ok {| entry_path := ["t"; "a.js"]; entry_file_type := FT_file; entry_is_dir := false |};
     Err "permission denied"; Err "loop"]
      = (pre ++ Err e0 :: post)%list /\
    (forall x, In x pre -> exists d, x = Ok d) /\
    harness_new [Ok {| entry_path := ["t"; "a.js"]; entry_file_type := FT_file; entry_is_dir := false |};
                 Err "permission denied"; Err "loop"] = Err (WalkDir e0) /\
    (forall post', harness_new ((pre ++ Err e0 :: post')%list) = Err (WalkDir e0)).
Proof.
  apply (harness_new_fails_fast _ "loop"). simpl; tauto.
Defined.

(** ** The iterator *)

Section Iteration.

Variable yaml_parse : string -> result yaml string.
Variable license_regex : result (string -> option (nat * nat)) RegexError.
Variable read_to_string : PathBuf -> result string IoError.

Let pull := next yaml_parse license_regex read_to_string.
Let extract := create_test_from_file yaml_parse license_regex read_to_string.

(** [next] answers [None] exactly when every path has been consumed. *)
Lemma next_none_iff (h : Harness) :
  (exists h', pull h = Ret (None, h')) <-> length (test_paths h) <= idx h.
Proof.
  unfold pull, next. split.
  - intros [h' H].
    destruct (Nat.leb (length (test_paths h)) (idx h)) eqn:E;
      [now apply Nat.leb_le|].
    apply Nat.leb_gt in E.
    destruct (nth_error (test_paths h) (idx h)) eqn:En.
    + destruct (create_test_from_file _ _ _ _); discriminate.
    + apply nth_error_None in En. lia.
  - intros Hl. apply Nat.leb_le in Hl. rewrite Hl. now exists h.
Qed.

(** A pull at an index inside the list consumes that path. *)
Lemma next_at (h : Harness) (p : PathBuf) :
  nth_error (test_paths h) (idx h) = Some p ->
  pull h = match extract p with
           | Ret r => Ret (Some r, {| test_paths := test_paths h; idx := S (idx h) |})
           | Panic => Panic
           end.
Proof.
  intros Hp. unfold pull, next.
  assert (Hl : idx h < length (test_paths h))
    by (apply nth_error_Some; congruence).
  destruct (Nat.leb (length (test_paths h)) (idx h)) eqn:E;
    [apply Nat.leb_le in E; lia|].
  rewrite Hp. reflexivity.
Qed.

End Iteration.

(** A pull that yields an error result advances to the next index with
    the path list unchanged; the following pull then extracts the next
    path as it would after any other result ([Some] of that extraction,
    or the extraction's panic), and a pull yields [None] exactly when all
    paths have been consumed. *)
Theorem next_error_does_not_stop
    (yaml_parse : string -> result yaml string)
    (license_regex : result (string -> option (nat * nat)) RegexError)
    (read_to_string : PathBuf -> result string IoError)
    (h h' : Harness) (e : Error) :
  next yaml_parse license_regex read_to_string h = Ret (Some (Err e), h') ->
  test_paths h' = test_paths h /\ idx h' = S (idx h) /\
  (forall p, nth_error (test_paths h) (S (idx h)) = Some p ->
     next yaml_parse license_regex read_to_string h'
       = match create_test_from_file yaml_parse license_regex read_to_string p with
         | Ret r => Ret (Some r, {| test_paths := test_paths h; idx := S (S (idx h)) |})
         | Panic => Panic
         end) /\
  ((exists h'', next yaml_parse license_regex read_to_string h' = Ret (None, h''))
     <-> length (test_paths h) <= S (idx h)).
Proof.
  intros H.
  assert (Hh' : test_paths h' = test_paths h /\ idx h' = S (idx h)).
  { unfold next in H.
    destruct (Nat.leb (length (test_paths h)) (idx h)); [discriminate|].
    destruct (nth_error (test_paths h) (idx h)); [|discriminate].
    destruct (create_test_from_file _ _ _ _); [|discriminate].
    injection H as _ <-. split; reflexivity. }
  destruct Hh' as [Hp Hi].
  split; [exact Hp|]. split; [exact Hi|]. split.
  - intros p Hn. rewrite <- Hp, <- Hi in Hn.
    rewrite (next_at _ _ _ h' p Hn). rewrite Hp, Hi. reflexivity.
  - rewrite <- Hp, <- Hi. apply next_none_iff.
Qed.

Lemma next_error_does_not_stop_witness :
  next (fun _ => Ok (YMap [])) (Ok (fun _ => None)) (fun _ => Err "permission denied")
       {| test_paths := [["a.js"]; ["b.js"]]; idx := 0 |}
    = Ret (Some (Err (Io "permission denied")), {| test_paths := [["a.js"]; ["b.js"]]; idx := 1 |}) /\
  next (fun _ => Ok (YMap [])) (Ok (fun _ => None)) (fun _ => Err "permission denied")
       {| test_paths := [["a.js"]; ["b.js"]]; idx := 1 |}
    = Ret (Some (Err (Io "permission denied")), {| test_paths := [["a.js"]; ["b.js"]]; idx := 2 |}).
Proof.
  split; [reflexivity|].
  exact (proj1 (proj2 (proj2 (next_error_does_not_stop
           (fun _ => Ok (YMap [])) (Ok (fun _ => None)) (fun _ => Err "permission denied")
           {| test_paths := [["a.js"]; ["b.js"]]; idx := 0 |}
           {| test_paths := [["a.js"]; ["b.js"]]; idx := 1 |}
           (Io "permission denied") eq_refl))) ["b.js"] eq_refl).
Defined.

(** C8 (failing input): an error result does not end the sequence, but
    the pull after it need not yield a result: when the next file is
    [/*---*/], that pull panics in [create_test] (see C3), so the consumer
    gets no result for position [i+1]. *)
Theorem next_after_error_can_panic
    (yaml_parse : string -> result yaml string)
    (license_regex : result (string -> option (nat * nat)) RegexError)
    (read_to_string : PathBuf -> result string IoError)
    (h h' : Harness) (e : Error) (p : PathBuf) :
  next yaml_parse license_regex read_to_string h = Ret (Some (Err e), h') ->
  nth_error (test_paths h) (S (idx h)) = Some p ->
  read_to_string p = Ok "/*---*/" ->
  next yaml_parse license_regex read_to_string h' = Panic.
Proof.
  intros H Hp Hr.
  assert (Hh' : test_paths h' = test_paths h /\ idx h' = S (idx h)).
  { unfold next in H.
    destruct (Nat.leb (length (test_paths h)) (idx h)); [discriminate|].
    destruct (nth_error (test_paths h) (idx h)); [|discriminate].
    destruct (create_test_from_file _ _ _ _); [|discriminate].
    injection H as _ <-. split; reflexivity. }
  destruct Hh' as [Ht Hi]. rewrite <- Ht, <- Hi in Hp.
  rewrite (next_at yaml_parse license_regex read_to_string h' p Hp).
  unfold create_test_from_file. rewrite Hr. reflexivity.
Qed.

Lemma next_after_error_can_panic_witness :
  next (fun _ => Ok (YMap [])) (Ok (fun _ => None))
       (fun q => if list_eq_dec String.string_dec q ["a.js"] then Err "denied" else Ok "/*---*/")
       {| test_paths := [["a.js"]; ["b.js"]]; idx := 1 |} = Panic.
Proof.
  apply (next_after_error_can_panic _ _ _
           {| test_paths := [["a.js"]; ["b.js"]]; idx := 0 |}
           {| test_paths := [["a.js"]; ["b.js"]]; idx := 1 |}
           (Io "denied") ["b.js"]); reflexivity.
Defined.

(** ** Further properties of the code *)

Lemma substring_drop (j n : nat) (s : string) :
  substring j n s = substring 0 n (drop_str j s).
Proof.
  revert s; induction j as [|j IH]; intros s; [reflexivity|].
  destruct s as [|c s]; [destruct n; reflexivity | apply IH].
Qed.

Lemma find_from_spec (pat s : string) (i j : nat) :
  find_from pat s i = Some j ->
  i <= j /\ String.prefix pat (drop_str (j - i) s) = true /\
  (forall k, k < j - i -> String.prefix pat (drop_str k s) = false).
Proof.
  revert i; induction s as [|c s IH]; intros i H; rewrite find_from_eq in H.
  - destruct (String.prefix pat "") eqn:E; [|discriminate].
    injection H as <-. rewrite Nat.sub_diag. split; [lia|]. split; [exact E|].
    intros k Hk; lia.
  - destruct (String.prefix pat (String c s)) eqn:E.
    + injection H as <-. rewrite Nat.sub_diag. split; [lia|]. split; [exact E|].
      intros k Hk; lia.
    + destruct (IH (S i) H) as [Hij [Hp Hk]].
      split; [lia|].
      replace (j - i) with (S (j - S i)) by lia. split; [exact Hp|].
      intros [|k] Hlt; [exact E|]. apply Hk. lia.
Qed.

Lemma prefix_substring (pat s : string) (j : nat) :
  String.prefix pat (drop_str j s) = true <->
  substring j (String.length pat) s = pat.
Proof. rewrite substring_drop. apply prefix_correct. Qed.

Lemma find_yaml_ok_first_occurrences_gen (content : string) (p : PathBuf) (a b : nat) :
  find_yaml content p = Ok (a, b) ->
  5 <= a /\
  substring (a - 5) 5 content = "/*---" /\
  substring b 5 content = "---*/" /\
  (forall j, j < a - 5 -> substring j 5 content <> "/*---") /\
  (forall j, j < b -> substring j 5 content <> "---*/").
Proof.
  unfold find_yaml, str_find. intros H.
  destruct (find_from "/*---" content 0) as [i|] eqn:Ei; [|discriminate].
  destruct (find_from "---*/" content 0) as [k|] eqn:Ek; [|discriminate].
  injection H as <- <-.
  apply find_from_spec in Ei as [_ [Hi Hi']]. apply find_from_spec in Ek as [_ [Hk Hk']].
  rewrite Nat.sub_0_r in *.
  replace (i + 5 - 5) with i by lia.
  split; [lia|]. split; [exact (proj1 (prefix_substring "/*---" _ _) Hi)|].
  split; [exact (proj1 (prefix_substring "---*/" _ _) Hk)|].
  split; intros j Hj Heq.
  - apply (proj2 (prefix_substring "/*---" content j)) in Heq.
    rewrite Hi' in Heq by lia. discriminate.
  - apply (proj2 (prefix_substring "---*/" content j)) in Heq.
    rewrite Hk' in Heq by lia. discriminate.
Qed.

(** [find_yaml] on success: [a - 5] is the first occurrence of [/*---]
    and [b] the first occurrence of [---*/]. *)
Theorem find_yaml_ok_first_occurrences (content : string) (p : PathBuf) (a b : nat) :
  find_yaml content p = Ok (a, b) ->
  5 <= a /\
  substring (a - 5) 5 content = "/*---" /\
  substring b 5 content = "---*/" /\
  (forall j, j < a - 5 -> substring j 5 content <> "/*---") /\
  (forall j, j < b -> substring j 5 content <> "---*/").
Proof. apply find_yaml_ok_first_occurrences_gen. Qed.

Lemma find_yaml_ok_first_occurrences_witness :
  5 <= 5 /\ substring 0 5 "/*---
id: a
---*/" = "/*---" /\
  substring 12 5 "/*---
id: a
---*/" = "---*/" /\
  (forall j, j < 0 -> substring j 5 "/*---
id: a
---*/" <> "/*---") /\
  (forall j, j < 12 -> substring j 5 "/*---
id: a
---*/" <> "---*/").
Proof. apply (find_yaml_ok_first_occurrences _ []). reflexivity. Defined.

(** [find_yaml] fails only with [DescriptionInvalid] of the given path, and
    it fails exactly when one of the two delimiters is absent. *)
Theorem find_yaml_err_iff (content : string) (p : PathBuf) :
  (forall e, find_yaml content p = Err e -> e = DescriptionInvalid p) /\
  ((exists e, find_yaml content p = Err e) <->
   (~ occurs "/*---" content \/ ~ occurs "---*/" content)).
Proof.
  unfold find_yaml. split; [|split].
  - intros e H.
    destruct (str_find content "/*---"); [destruct (str_find content "---*/")|];
      congruence.
  - intros [e H].
    destruct (str_find content "/*---") eqn:Eo.
    + destruct (str_find content "---*/") eqn:Ec; [discriminate|].
      right. now apply str_find_None_iff.
    + left. now apply str_find_None_iff.
  - intros [Ho|Hc].
    + apply str_find_None_iff in Ho. rewrite Ho. eexists; reflexivity.
    + apply str_find_None_iff in Hc. rewrite Hc.
      destruct (str_find content "/*---"); eexists; reflexivity.
Qed.

Lemma find_yaml_err_iff_witness :
  exists e, find_yaml "/*--- id: a" ["x.js"] = Err e.
Proof.
  apply (proj2 (proj2 (find_yaml_err_iff "/*--- id: a" ["x.js"]))).
  right. apply str_find_None_iff. reflexivity.
Defined.

(** Both delimiters present: [find_yaml] succeeds. *)
Theorem find_yaml_ok_when_both_present (content : string) (p : PathBuf) :
  occurs "/*---" content -> occurs "---*/" content ->
  exists a b, find_yaml content p = Ok (a, b).
Proof.
  intros Ho Hc. unfold find_yaml, str_find.
  destruct (find_from_present _ _ 0 Ho) as [i ->].
  destruct (find_from_present _ _ 0 Hc) as [k ->]. eauto.
Qed.

Lemma find_yaml_ok_when_both_present_witness :
  exists a b, find_yaml "---*/ /*---" [] = Ok (a, b).
Proof.
  apply find_yaml_ok_when_both_present.
  - exists "---*/ ", "". reflexivity.
  - exists "", " /*---". reflexivity.
Defined.

Lemma byte_in_iff (lo hi : nat) (c : ascii) :
  byte_in lo hi c = true <-> lo <= nat_of_ascii c <= hi.
Proof. unfold byte_in. rewrite andb_true_iff, !Nat.leb_le. reflexivity. Qed.

Lemma get_lt (i : nat) (s : string) (c : ascii) :
  String.get i s = Some c -> i < String.length s.
Proof.
  revert i; induction s as [|d s IH]; intros [|i] H; simpl in *; try discriminate; [lia|].
  specialize (IH i H). lia.
Qed.

Lemma get_drop (j k : nat) (s : string) :
  String.get k (drop_str j s) = String.get (j + k) s.
Proof.
  revert s; induction j as [|j IH]; intros s; [reflexivity|].
  destruct s; [reflexivity | apply IH].
Qed.

Lemma substring0_get (n : nat) (u t : string) :
  substring 0 n u = t -> String.length t = n ->
  forall k, k < n -> String.get k u = String.get k t.
Proof.
  revert u t; induction n as [|n IH]; intros u t H Hl k Hk; [lia|].
  destruct u as [|c u]; simpl in H.
  - subst t. simpl in Hl. lia.
  - subst t. destruct k as [|k]; [reflexivity|]. simpl.
    apply IH; [reflexivity | simpl in Hl |]; lia.
Qed.

Lemma substring_get (j n : nat) (s t : string) :
  substring j n s = t -> String.length t = n ->
  forall k, k < n -> String.get (j + k) s = String.get k t.
Proof.
  intros H Hl k Hk. rewrite substring_drop in H. rewrite <- get_drop.
  exact (substring0_get n _ _ H Hl k Hk).
Qed.

(** The first byte of a well-formed UTF-8 string is not a continuation byte. *)
Lemma utf8_first_not_cont (d : ascii) (r : string) :
  utf8_valid (String d r) = true -> ~ (128 <= nat_of_ascii d <= 191).
Proof.
  intros H Hd. cbn [utf8_valid] in H.
  assert (E1 : byte_in 0 127 d = false)
    by (apply Bool.not_true_iff_false; rewrite byte_in_iff; lia).
  assert (E2 : byte_in 194 223 d = false)
    by (apply Bool.not_true_iff_false; rewrite byte_in_iff; lia).
  assert (E3 : byte_in 224 239 d = false)
    by (apply Bool.not_true_iff_false; rewrite byte_in_iff; lia).
  assert (E4 : byte_in 240 244 d = false)
    by (apply Bool.not_true_iff_false; rewrite byte_in_iff; lia).
  rewrite E1, E2, E3, E4 in H. discriminate.
Qed.

Ltac byte_facts :=
  repeat match goal with
         | H : byte_in _ _ _ = true |- _ => apply byte_in_iff in H
         | H : (_ && _)%bool = true |- _ => apply andb_true_iff in H as [? ?]
         end.

(** In well-formed UTF-8, the byte after an ASCII byte is not a
    continuation byte. *)
Lemma utf8_no_cont_after_ascii (n : nat) :
  forall s, String.length s < n -> utf8_valid s = true ->
  forall i c d, String.get i s = Some c -> nat_of_ascii c < 128 ->
  String.get (S i) s = Some d -> ~ (128 <= nat_of_ascii d <= 191).
Proof.
  induction n as [|n IH]; intros s Hl Hv i c d Hc Ha Hd; [lia|].
  destruct s as [|c0 r]; [discriminate|].
  cbn [utf8_valid] in Hv. simpl in Hl.
  destruct (byte_in 0 127 c0) eqn:B0.
  { destruct i as [|i].
    - destruct r as [|d' r']; [discriminate|]. simpl in Hd. injection Hd as <-.
      exact (utf8_first_not_cont d' r' Hv).
    - exact (IH r ltac:(lia) Hv i c d Hc Ha Hd). }
  assert (Hc0 : 128 <= nat_of_ascii c0).
  { apply Bool.not_true_iff_false in B0. rewrite byte_in_iff in B0.
    pose proof (Ascii.nat_ascii_bounded c0). lia. }
  destruct (byte_in 194 223 c0) eqn:B1.
  { destruct r as [|c1 r1]; [discriminate|]. byte_facts.
    simpl in Hl.
    destruct i as [|[|i]]; simpl in Hc;
      [injection Hc as <-; lia | injection Hc as <-; lia|].
    exact (IH r1 ltac:(lia) ltac:(assumption) i c d Hc Ha Hd). }
  destruct (byte_in 224 239 c0) eqn:B2.
  { destruct r as [|c1 [|c2 r2]]; try discriminate.
    assert (Hc1 : 128 <= nat_of_ascii c1).
    { destruct (Nat.eqb (nat_of_ascii c0) 224); [|destruct (Nat.eqb (nat_of_ascii c0) 237)];
        byte_facts; lia. }
    destruct (Nat.eqb (nat_of_ascii c0) 224); [|destruct (Nat.eqb (nat_of_ascii c0) 237)];
      byte_facts; simpl in Hl;
      (destruct i as [|[|[|i]]]; simpl in Hc;
       [injection Hc as <-; lia | injection Hc as <-; lia | injection Hc as <-; lia |
        exact (IH r2 ltac:(lia) ltac:(assumption) i c d Hc Ha Hd)]). }
  destruct (byte_in 240 244 c0) eqn:B3; [|discriminate].
  destruct r as [|c1 [|c2 [|c3 r3]]]; try discriminate.
  assert (Hc1 : 128 <= nat_of_ascii c1).
  { destruct (Nat.eqb (nat_of_ascii c0) 240); [|destruct (Nat.eqb (nat_of_ascii c0) 244)];
      byte_facts; lia. }
  destruct (Nat.eqb (nat_of_ascii c0) 240); [|destruct (Nat.eqb (nat_of_ascii c0) 244)];
    byte_facts; simpl in Hl;
    (destruct i as [|[|[|[|i]]]]; simpl in Hc;
     [injection Hc as <-; lia | injection Hc as <-; lia | injection Hc as <-; lia |
      injection Hc as <-; lia |
      exact (IH r3 ltac:(lia) ltac:(assumption) i c d Hc Ha Hd)]).
Qed.

Lemma get_some (i : nat) (s : string) :
  i < String.length s -> exists c, String.get i s = Some c.
Proof.
  revert i; induction s as [|d s IH]; intros [|i] H; simpl in *; try lia; eauto.
  apply IH. lia.
Qed.

Lemma boundary_after_ascii (s : string) (i : nat) (c : ascii) :
  utf8_valid s = true -> String.get i s = Some c -> nat_of_ascii c < 128 ->
  is_char_boundary s (S i) = true.
Proof.
  intros Hv Hc Ha. pose proof (get_lt _ _ _ Hc) as Hl.
  unfold is_char_boundary.
  destruct (Nat.eq_dec (S i) (String.length s)) as [->|Hne];
    [rewrite Nat.eqb_refl, orb_true_r; reflexivity|].
  destruct (get_some (S i) s ltac:(lia)) as [d Hd]. rewrite Hd.
  pose proof (utf8_no_cont_after_ascii (S (String.length s)) s ltac:(lia) Hv i c d Hc Ha Hd).
  apply orb_true_iff; right. apply andb_true_iff; split; [apply Nat.ltb_lt; lia|].
  apply negb_true_iff, Bool.not_true_iff_false. rewrite andb_true_iff, !Nat.leb_le. exact H.
Qed.

Lemma boundary_at_ascii (s : string) (i : nat) (c : ascii) :
  String.get i s = Some c -> nat_of_ascii c < 128 -> is_char_boundary s i = true.
Proof.
  intros Hc Ha. pose proof (get_lt _ _ _ Hc) as Hl. unfold is_char_boundary.
  rewrite Hc. apply orb_true_iff; right. apply andb_true_iff; split; [apply Nat.ltb_lt; lia|].
  apply negb_true_iff, Bool.not_true_iff_false. rewrite andb_true_iff, !Nat.leb_le. lia.
Qed.

(** For a well-formed UTF-8 text (every Rust [String]), [create_test]
    panics exactly when both delimiters are found and the first [---*/]
    starts before the end of the first [/*---]; otherwise it returns a
    [Result]. *)
Theorem create_test_panic_iff
    (yaml_parse : string -> result yaml string)
    (license_regex : result (string -> option (nat * nat)) RegexError)
    (contents : string) (p : PathBuf) :
  utf8_valid contents = true ->
  (create_test yaml_parse license_regex contents p = Panic <->
   exists a b, find_yaml contents p = Ok (a, b) /\ b < a).
Proof.
  intros Hv. unfold create_test.
  destruct (find_yaml contents p) as [[a b]|e] eqn:Ef.
  2:{ split; [discriminate | intros [a [b [E _]]]; discriminate]. }
  pose proof (find_yaml_ok_first_occurrences_gen _ _ _ _ Ef) as [H5 [Ho [Hc _]]].
  pose proof (substring_get _ _ _ _ Ho eq_refl 4 ltac:(lia)) as Ga. simpl in Ga.
  pose proof (substring_get _ _ _ _ Hc eq_refl 4 ltac:(lia)) as Gb4. simpl in Gb4.
  pose proof (substring_get _ _ _ _ Hc eq_refl 0 ltac:(lia)) as Gb. simpl in Gb.
  rewrite Nat.add_0_r in Gb.
  pose proof (get_lt _ _ _ Gb4) as Hlb.
  split.
  - intros Hp. exists a, b. split; [reflexivity|].
    destruct (Nat.lt_ge_cases b a) as [Hlt|Hge]; [exact Hlt|]. exfalso.
    unfold str_slice in Hp.
    replace (Nat.leb a b) with true in Hp by (symmetry; apply Nat.leb_le; lia).
    replace (Nat.leb b (String.length contents)) with true in Hp
      by (symmetry; apply Nat.leb_le; lia).
    replace (is_char_boundary contents a) with true in Hp
      by (symmetry; replace a with (S (a - 5 + 4)) by lia;
          exact (boundary_after_ascii _ _ _ Hv Ga (proj1 (Nat.ltb_lt (nat_of_ascii "-"%char) 128) eq_refl))).
    replace (is_char_boundary contents b) with true in Hp
      by (symmetry; exact (boundary_at_ascii _ _ _ Gb (proj1 (Nat.ltb_lt (nat_of_ascii "-"%char) 128) eq_refl))).
    simpl in Hp. unfold find_license in Hp.
    destruct license_regex; [|discriminate].
    destruct (yaml_from_str _ _); discriminate.
  - intros [a' [b' [E Hlt]]]. injection E as <- <-.
    unfold str_slice. replace (Nat.leb a b) with false by (symmetry; apply Nat.leb_gt; lia).
    reflexivity.
Qed.

Lemma create_test_panic_iff_witness :
  create_test (fun _ => Ok (YMap [])) (Ok (fun _ => None)) "/*---*/" [] = Panic.
Proof.
  apply (proj2 (create_test_panic_iff (fun _ => Ok (YMap [])) (Ok (fun _ => None))
                  "/*---*/" [] eq_refl)).
  exists 5, 2. split; [reflexivity | lia].
Defined.

Lemma replace_cr_props (s : string) :
  String.length (replace_cr s) = String.length s /\
  (forall i, String.get i (replace_cr s)
             = option_map (fun c => if Ascii.eqb c ascii_CR then ascii_LF else c)
                          (String.get i s)) /\
  (forall i, String.get i (replace_cr s) <> Some ascii_CR).
Proof.
  assert (Hg : forall i, String.get i (replace_cr s)
             = option_map (fun c => if Ascii.eqb c ascii_CR then ascii_LF else c)
                          (String.get i s)).
  { induction s as [|c s IH]; intros [|i]; simpl; auto. }
  split; [|split; [exact Hg|]].
  - clear Hg. induction s as [|c s IH]; simpl; [reflexivity | now rewrite IH].
  - intros i. rewrite Hg. destruct (String.get i s) as [c|]; simpl; [|discriminate].
    destruct (Ascii.eqb_spec c ascii_CR); intros H; injection H as H;
      [discriminate | contradiction].
Qed.

(** [create_test] hands the YAML parser only CR-free text: two parsers
    that agree on CR-free strings give the same result on every file. *)
Theorem create_test_parser_sees_no_cr
    (parse1 parse2 : string -> result yaml string)
    (license_regex : result (string -> option (nat * nat)) RegexError)
    (contents : string) (p : PathBuf) :
  (forall s, (forall i, String.get i s <> Some ascii_CR) -> parse1 s = parse2 s) ->
  create_test parse1 license_regex contents p = create_test parse2 license_regex contents p.
Proof.
  intros Hagree. unfold create_test.
  destruct (find_yaml contents p) as [[a b]|e]; [|reflexivity].
  destruct (str_slice contents a b) as [y|]; [|reflexivity].
  destruct (find_license license_regex contents); [|reflexivity].
  unfold yaml_from_str. rewrite (Hagree (replace_cr y) (proj2 (proj2 (replace_cr_props y)))).
  reflexivity.
Qed.

Lemma create_test_parser_sees_no_cr_witness :
  create_test (fun _ => Ok (YMap [])) (Ok (fun _ => None)) "/*---
---*/" []
  = create_test (fun s => if String.eqb s (String ascii_CR "") then Err "CR"
                          else Ok (YMap [])) (Ok (fun _ => None)) "/*---
---*/" [].
Proof.
  apply create_test_parser_sees_no_cr. intros s Hs.
  destruct (String.eqb_spec s (String ascii_CR "")) as [->|_]; [|reflexivity].
  exfalso. exact (Hs 0 eq_refl).
Defined.

Lemma create_test_license_independent_gen
    (yaml_parse : string -> result yaml string)
    (f g : string -> option (nat * nat)) (contents : string) (p : PathBuf) :
  match create_test yaml_parse (Ok f) contents p with
  | Ret (Ok t) =>
      source t = contents /\ path t = p /\ license t = f contents /\
      create_test yaml_parse (Ok g) contents p
        = Ret (Ok {| source := contents; path := p; desc := desc t;
                     license := g contents |})
  | r => create_test yaml_parse (Ok g) contents p = r
  end.
Proof.
  unfold create_test.
  destruct (find_yaml contents p) as [[a b]|e]; [|reflexivity].
  destruct (str_slice contents a b) as [y|]; [|reflexivity].
  simpl. destruct (yaml_from_str yaml_parse (replace_cr y)); simpl; auto.
Qed.

(** Whether [create_test] succeeds, and what it decodes, does not depend on
    the license search: with any other [find] the same file gives the same
    result, with only the [license] field replaced; a successful [Test]
    keeps the file's text and path. *)
Theorem create_test_license_independent
    (yaml_parse : string -> result yaml string)
    (f g : string -> option (nat * nat)) (contents : string) (p : PathBuf) :
  match create_test yaml_parse (Ok f) contents p with
  | Ret (Ok t) =>
      source t = contents /\ path t = p /\ license t = f contents /\
      create_test yaml_parse (Ok g) contents p
        = Ret (Ok {| source := contents; path := p; desc := desc t;
                     license := g contents |})
  | r => create_test yaml_parse (Ok g) contents p = r
  end.
Proof. apply create_test_license_independent_gen. Qed.

(** [Test::license] on a [Test] built by [create_test]: [None] when the
    pattern found nothing; the matched text when the match is a valid
    range of the file (as [regex] matches are). *)
Theorem test_license_of_create_test
    (yaml_parse : string -> result yaml string)
    (f : string -> option (nat * nat)) (contents : string) (p : PathBuf) (t : Test) :
  create_test yaml_parse (Ok f) contents p = Ret (Ok t) ->
  (f contents = None -> test_license t = Ret None) /\
  (forall s e, f contents = Some (s, e) -> s <= e <= String.length contents ->
     is_char_boundary contents s = true -> is_char_boundary contents e = true ->
     test_license t = Ret (Some (substring s (e - s) contents))).
Proof.
  intros H.
  pose proof (create_test_license_independent_gen yaml_parse f f contents p) as Hi.
  rewrite H in Hi. destruct Hi as [Hs [_ [Hl _]]].
  unfold test_license. rewrite Hl, Hs. split.
  - intros ->. reflexivity.
  - intros s e -> He Bs Be. unfold str_slice.
    replace (Nat.leb s e) with true by (symmetry; apply Nat.leb_le; lia).
    replace (Nat.leb e (String.length contents)) with true by (symmetry; apply Nat.leb_le; lia).
    rewrite Bs, Be. reflexivity.
Qed.

Lemma test_license_of_create_test_witness :
  test_license {| source := "// c
/*---
---*/"; path := []; desc := empty_description; license := Some (0, 5) |}
    = Ret (Some "// c
").
Proof.
  apply (proj2 (test_license_of_create_test (fun _ => Ok (YMap []))
                  (fun _ => Some (0, 5)) "// c
/*---
---*/" [] _ eq_refl) 0 5 eq_refl); [simpl; lia | reflexivity | reflexivity].
Defined.

(** *** The [Description] and [Negative] visitors *)

Definition desc_known_key (kv : string * yaml) : bool :=
  match desc_field (fst kv) with Some _ => true | None => false end.

Definition negative_known_key (kv : string * yaml) : bool :=
  match negative_field (fst kv) with Some _ => true | None => false end.

Lemma visit_description_filter (m : list (string * yaml)) (acc : DescSlots) :
  visit_description m acc = visit_description (filter desc_known_key m) acc.
Proof.
  revert acc; induction m as [|[k v] m IH]; intros acc; [reflexivity|].
  cbn [filter]. unfold desc_known_key at 1. cbn [fst].
  destruct (desc_field k) as [f|] eqn:Ef; cbn [visit_description]; rewrite Ef; [|apply IH].
  destruct (slot f acc); [reflexivity|].
  destruct (de_desc_field f v); [apply IH | reflexivity].
Qed.

Lemma visit_negative_filter (m : list (string * yaml)) ph kd :
  visit_negative m ph kd = visit_negative (filter negative_known_key m) ph kd.
Proof.
  revert ph kd; induction m as [|[k v] m IH]; intros ph kd; [reflexivity|].
  cbn [filter]. unfold negative_known_key at 1. cbn [fst].
  destruct (negative_field k) as [[|]|] eqn:Ef; cbn [visit_negative]; rewrite Ef; [| |apply IH].
  - destruct ph; [reflexivity|]. destruct (de_phase v); [apply IH | reflexivity].
  - destruct kd; [reflexivity|]. destruct (de_option de_string v); [apply IH | reflexivity].
Qed.

(** Unknown keys are skipped: dropping every key that is not a field of
    [Description] (resp. [Negative]) does not change the decoding. *)
Theorem decode_ignores_unknown_keys (m : list (string * yaml)) :
  de_description (YMap m) = de_description (YMap (filter desc_known_key m)) /\
  de_negative (YMap m) = de_negative (YMap (filter negative_known_key m)).
Proof.
  split; simpl; [now rewrite <- visit_description_filter | apply visit_negative_filter].
Qed.

Lemma visit_description_keeps_slot (m : list (string * yaml)) (acc acc' : DescSlots)
    (f : DescField) (x : FieldVal) :
  visit_description m acc = Ok acc' -> slot f acc = Some x -> slot f acc' = Some x.
Proof.
  revert acc; induction m as [|[k v] m IH]; intros acc H Hs; simpl in H.
  - congruence.
  - destruct (desc_field k) as [g|]; [|exact (IH _ H Hs)].
    destruct (slot g acc) eqn:Eg; [discriminate|].
    destruct (de_desc_field g v) as [y|]; [|discriminate].
    apply (IH _ H). simpl.
    destruct (desc_field_eqb_reflect f g) as [->|_]; [congruence | exact Hs].
Qed.

Lemma visit_description_key_slot (m : list (string * yaml)) (acc acc' : DescSlots)
    (k : string) (v : yaml) (f : DescField) :
  visit_description m acc = Ok acc' -> In (k, v) m -> desc_field k = Some f ->
  exists x, de_desc_field f v = Ok x /\ slot f acc' = Some x.
Proof.
  revert acc; induction m as [|[k' v'] m IH]; intros acc H Hin Hf; [destruct Hin|].
  simpl in H. destruct Hin as [Heq|Hin].
  - injection Heq as -> ->. rewrite Hf in H.
    destruct (slot f acc); [discriminate|].
    destruct (de_desc_field f v) as [x|]; [|discriminate].
    exists x. split; [reflexivity|].
    apply (visit_description_keeps_slot _ _ _ f x H). simpl.
    destruct (desc_field_eqb_reflect f f) as [_|n]; [reflexivity | now elim n].
  - destruct (desc_field k') as [g|]; [|exact (IH _ H Hin Hf)].
    destruct (slot g acc); [discriminate|].
    destruct (de_desc_field g v') as [y|]; [|discriminate].
    exact (IH _ H Hin Hf).
Qed.

Lemma finish_slot_some (f : DescField) (acc : DescSlots) (v : yaml) (x : FieldVal) :
  slot f acc = Some x -> de_desc_field f v = Ok x ->
  desc_get f (finish_description acc) = x.
Proof.
  intros Hs Hd.
  destruct f; simpl in Hd;
    match type of Hd with
    | match ?r with _ => _ end = _ => destruct r; [injection Hd as <- | discriminate]
    end;
    simpl; unfold slot_opt_string, slot_strings; rewrite Hs; reflexivity.
Qed.

(** Each known key of a decoded mapping determines its field: the field
    of the result is the decoding of that key's value on its own. *)
Theorem decode_field_from_key (m : list (string * yaml)) (d : Description)
    (k : string) (v : yaml) (f : DescField) :
  de_description (YMap m) = Ok d -> In (k, v) m -> desc_field k = Some f ->
  de_desc_field f v = Ok (desc_get f d).
Proof.
  intros H Hin Hf. simpl in H.
  destruct (visit_description m []) as [acc|] eqn:E; [|discriminate].
  injection H as <-.
  destruct (visit_description_key_slot m [] acc k v f E Hin Hf) as [x [Hx Hs]].
  rewrite (finish_slot_some f acc v x Hs Hx). exact Hx.
Qed.

Lemma decode_field_from_key_witness :
  de_desc_field DF_flags (YSeq [YScalar "raw"; YScalar "non-deterministic"])
    = Ok (desc_get DF_flags (finish_description
            [(DF_flags, FV_flags [Raw; NonDeterministic]); (DF_id, FV_opt_string (Some "t"))])).
Proof.
  apply (decode_field_from_key
           [("id", YScalar "t"); ("x-extra", YSeq []);
            ("flags", YSeq [YScalar "raw"; YScalar "non-deterministic"])]
           _ "flags"); [reflexivity | simpl; tauto | reflexivity].
Defined.

Lemma desc_field_of_name (f : DescField) : desc_field (desc_field_name f) = Some f.
Proof. destruct f; reflexivity. Qed.

Lemma visit_description_once (f : DescField) (m : list (string * yaml)) (acc acc' : DescSlots) :
  visit_description m acc = Ok acc' -> In (desc_field_name f) (map fst m) ->
  slot f acc = None /\ count_occ String.string_dec (map fst m) (desc_field_name f) = 1.
Proof.
  revert acc; induction m as [|[k v] m IH]; intros acc H Hin; [destruct Hin|].
  simpl in H, Hin |- *.
  destruct (String.string_dec k (desc_field_name f)) as [->|Hk].
  - rewrite desc_field_of_name in H.
    destruct (slot f acc) eqn:Es; [discriminate|].
    destruct (de_desc_field f v) as [x|]; [|discriminate].
    split; [reflexivity|]. f_equal.
    destruct (in_dec String.string_dec (desc_field_name f) (map fst m)) as [Hm|Hm].
    + destruct (IH _ H Hm) as [Hs _]. simpl in Hs.
      destruct (desc_field_eqb_reflect f f) as [_|n]; [discriminate | now elim n].
    + now apply count_occ_not_In.
  - destruct Hin as [Hin|Hin]; [congruence|].
    destruct (desc_field k) as [g|] eqn:Eg; [|exact (IH _ H Hin)].
    apply desc_field_name_of in Eg.
    destruct (slot g acc) eqn:Es; [discriminate|].
    destruct (de_desc_field g v) as [x|]; [|discriminate].
    destruct (IH _ H Hin) as [Hs Hc]. simpl in Hs.
    destruct (desc_field_eqb_reflect f g) as [->|_]; [congruence|].
    split; [exact Hs | exact Hc].
Qed.

(** A field of [Description] given twice makes decoding fail (the
    derive's [duplicate_field]): a decoded mapping has each known key
    exactly once or not at all. *)
Theorem decode_rejects_duplicate_keys (m : list (string * yaml)) (d : Description) :
  de_description (YMap m) = Ok d ->
  forall f, count_occ String.string_dec (map fst m) (desc_field_name f) <= 1.
Proof.
  intros H f. simpl in H.
  destruct (visit_description m []) as [acc|] eqn:E; [|discriminate].
  destruct (in_dec String.string_dec (desc_field_name f) (map fst m)) as [Hin|Hn].
  - destruct (visit_description_once f m [] acc E Hin) as [_ ->]. lia.
  - rewrite (count_occ_not_In String.string_dec) in Hn. lia.
Qed.

Lemma decode_rejects_duplicate_keys_witness :
  count_occ String.string_dec (map fst [("id", YScalar "a"); ("flags", YSeq [])])
            (desc_field_name DF_id) <= 1.
Proof.
  apply (decode_rejects_duplicate_keys [("id", YScalar "a"); ("flags", YSeq [])]
           (finish_description [(DF_flags, FV_flags []); (DF_id, FV_opt_string (Some "a"))])
           eq_refl).
Defined.

Definition kind_key (k : string) : bool := (k =? "kind") || (k =? "type").

Lemma negative_field_cases (k : string) :
  (negative_field k = Some NF_phase <-> k = "phase") /\
  (negative_field k = Some NF_kind <-> kind_key k = true) /\
  (negative_field k = None <-> k <> "phase" /\ kind_key k = false).
Proof.
  unfold negative_field, kind_key.
  destruct (String.eqb_spec k "phase") as [->|Hp]; [simpl; intuition congruence|].
  destruct ((k =? "kind") || (k =? "type")); intuition congruence.
Qed.

Lemma visit_negative_shape (m : list (string * yaml)) :
  forall ph kd n, visit_negative m ph kd = Ok n ->
  (forall q, ph = Some q -> phase n = q /\ ~ In "phase" (map fst m)) /\
  (ph = None -> exists v, In ("phase", v) m /\ de_phase v = Ok (phase n) /\
                          count_occ String.string_dec (map fst m) "phase" = 1) /\
  (kd <> None -> filter kind_key (map fst m) = []) /\
  length (filter kind_key (map fst m)) <= 1.
Proof.
  induction m as [|[k v] m IH]; intros ph kd n H.
  - simpl in H. destruct ph as [q|]; [|discriminate]. injection H as <-.
    split; [intros q' Hq; injection Hq as <-; split; [reflexivity | intros []]|].
    split; [discriminate|]. split; [reflexivity | simpl; lia].
  - pose proof (negative_field_cases k) as [Cp [Ck Cn]].
    simpl in H |- *.
    destruct (negative_field k) as [[|]|] eqn:Ef.
    + assert (k = "phase") as -> by (apply Cp; reflexivity). destruct ph as [q|]; [discriminate|].
      destruct (de_phase v) as [p|] eqn:Ev; [|discriminate].
      destruct (IH _ _ _ H) as [Hq [_ [Hk Hl]]].
      destruct (Hq p eq_refl) as [<- Hnin].
      split; [discriminate|]. split.
      * intros _. exists v. split; [now left|]. split; [exact Ev|].
        simpl. destruct (String.string_dec "phase" "phase") as [_|c]; [|now elim c].
        f_equal. now apply count_occ_not_In.
      * unfold kind_key at 1 3. simpl. split; [exact Hk | exact Hl].
    + assert (Hkk : kind_key k = true) by (apply Ck; reflexivity). destruct kd as [x|]; [discriminate|].
      destruct (de_option de_string v) as [x|]; [|discriminate].
      destruct (IH _ _ _ H) as [Hq [Hn [Hk Hl]]].
      assert (Hkp : k <> "phase") by (intros ->; discriminate).
      rewrite Hkk. rewrite (Hk ltac:(discriminate)).
      split; [|split; [|split; [congruence | simpl; lia]]].
      * intros q Hph. destruct (Hq q Hph) as [Hp Hnin]. split; [exact Hp|].
        intros [Hc|Hc]; [congruence | contradiction].
      * intros Hph. destruct (Hn Hph) as [w [Hw [Hd Hc]]]. exists w.
        split; [now right|]. split; [exact Hd|].
        destruct (String.string_dec k "phase"); [contradiction | exact Hc].
    + destruct (proj1 Cn eq_refl) as [Hkp Hkk].
      destruct (IH _ _ _ H) as [Hq [Hn [Hk Hl]]]. rewrite Hkk.
      split; [|split; [|split; [exact Hk | exact Hl]]].
      * intros q Hph. destruct (Hq q Hph) as [Hp Hnin]. split; [exact Hp|].
        intros [Hc|Hc]; [congruence | contradiction].
      * intros Hph. destruct (Hn Hph) as [w [Hw [Hd Hc]]]. exists w.
        split; [now right|]. split; [exact Hd|].
        destruct (String.string_dec k "phase"); [contradiction | exact Hc].
Qed.

(** A [negative] mapping decodes only if it has exactly one [phase] key,
    whose value gives the phase, and at most one of [kind] / [type]:
    giving both spellings of the alias makes decoding fail. *)
Theorem negative_decode_shape (m : list (string * yaml)) (n : Negative) :
  de_negative (YMap m) = Ok n ->
  (exists v, In ("phase", v) m /\ de_phase v = Ok (phase n)) /\
  count_occ String.string_dec (map fst m) "phase" = 1 /\
  length (filter kind_key (map fst m)) <= 1.
Proof.
  intros H. simpl in H.
  destruct (visit_negative_shape m None None n H) as [_ [Hn [_ Hl]]].
  destruct (Hn eq_refl) as [v [Hv [Hd Hc]]].
  split; [exists v; split; assumption|]. split; assumption.
Qed.

Lemma negative_decode_shape_witness :
  (exists v, In ("phase", v) [("phase", YScalar "runtime"); ("type", YScalar "TypeError")] /\
             de_phase v = Ok Runtime) /\
  count_occ String.string_dec (map fst [("phase", YScalar "runtime"); ("type", YScalar "TypeError")]) "phase" = 1 /\
  length (filter kind_key (map fst [("phase", YScalar "runtime"); ("type", YScalar "TypeError")])) <= 1.
Proof.
  exact (negative_decode_shape [("phase", YScalar "runtime"); ("type", YScalar "TypeError")]
           {| phase := Runtime; kind := Some "TypeError" |} eq_refl).
Defined.

Lemma desc_get_ext (d1 d2 : Description) :
  (forall g, desc_get g d1 = desc_get g d2) -> d1 = d2.
Proof.
  intros H. destruct d1, d2.
  pose proof (H DF_id) as H1; pose proof (H DF_esid) as H2;
  pose proof (H DF_es5id) as H3; pose proof (H DF_es6id) as H4;
  pose proof (H DF_info) as H5; pose proof (H DF_description) as H6;
  pose proof (H DF_negative) as H7; pose proof (H DF_includes) as H8;
  pose proof (H DF_flags) as H9; pose proof (H DF_locale) as H10;
  pose proof (H DF_features) as H11; simpl in *.
  injection H1; injection H2; injection H3; injection H4; injection H5;
  injection H6; injection H7; injection H8; injection H9; injection H10;
  injection H11; intros; subst; reflexivity.
Qed.

Lemma visit_description_agree (f : DescField) (m : list (string * yaml)) :
  ~ In (desc_field_name f) (map fst m) ->
  forall acc1 acc2, (forall g, g <> f -> slot g acc1 = slot g acc2) ->
  (exists e, visit_description m acc1 = Err e /\ visit_description m acc2 = Err e) \/
  (exists b1 b2, visit_description m acc1 = Ok b1 /\ visit_description m acc2 = Ok b2 /\
     (forall g, g <> f -> slot g b1 = slot g b2)).
Proof.
  induction m as [|[k v] m IH]; intros Hn acc1 acc2 Ha.
  - right. exists acc1, acc2. simpl. auto.
  - simpl in Hn |- *.
    assert (Hn' : ~ In (desc_field_name f) (map fst m)) by tauto.
    destruct (desc_field k) as [g|] eqn:Eg; [|exact (IH Hn' _ _ Ha)].
    apply desc_field_name_of in Eg.
    assert (Hgf : g <> f) by (intros ->; apply Hn; left; symmetry; exact Eg).
    rewrite <- (Ha g Hgf).
    destruct (slot g acc1); [left; eexists; split; reflexivity|].
    destruct (de_desc_field g v) as [y|e]; [|left; exists e; split; reflexivity].
    apply (IH Hn'). intros h Hh. simpl.
    destruct (desc_field_eqb h g); [reflexivity | exact (Ha h Hh)].
Qed.

Lemma visit_description_app (m1 m2 : list (string * yaml)) (acc : DescSlots) :
  visit_description (m1 ++ m2) acc
  = match visit_description m1 acc with
    | Ok acc' => visit_description m2 acc'
    | Err e => Err e
    end.
Proof.
  revert acc; induction m1 as [|[k v] m1 IH]; intros acc; [reflexivity|].
  simpl. destruct (desc_field k) as [g|]; [|apply IH].
  destruct (slot g acc); [reflexivity|].
  destruct (de_desc_field g v); [apply IH | reflexivity].
Qed.

(** A key whose value decodes to the field's default (a null scalar for an
    [Option] field, an empty sequence for a [#[serde(default)] Vec] field),
    wherever it stands in the mapping, gives the same decoding result as
    leaving the key out. *)
Theorem decode_default_value_as_absent (f : DescField) (v : yaml)
    (m1 m2 : list (string * yaml)) :
  de_desc_field f v = Ok (field_default f) ->
  ~ In (desc_field_name f) (map fst (m1 ++ m2)) ->
  de_description (YMap (m1 ++ (desc_field_name f, v) :: m2))
    = de_description (YMap (m1 ++ m2)).
Proof.
  intros Hv Hn. rewrite map_app, in_app_iff in Hn.
  assert (Hn1 : ~ In (desc_field_name f) (map fst m1)) by tauto.
  assert (Hn2 : ~ In (desc_field_name f) (map fst m2)) by tauto.
  unfold de_description. rewrite !visit_description_app.
  destruct (visit_description m1 []) as [a|e] eqn:E0; [|reflexivity].
  assert (Hs : slot f a = None)
    by (rewrite (visit_description_absent f m1 [] a E0 Hn1); reflexivity).
  cbn [visit_description]. rewrite desc_field_of_name, Hs, Hv.
  assert (Ha : forall g, g <> f -> slot g a = slot g ((f, field_default f) :: a)).
  { intros g Hg. simpl. destruct (desc_field_eqb_reflect g f); [contradiction | reflexivity]. }
  destruct (visit_description_agree f m2 Hn2 a ((f, field_default f) :: a) Ha)
    as [[e [E1 E2]] | [b1 [b2 [E1 [E2 Hb]]]]]; rewrite E1, E2; [reflexivity|].
  f_equal. apply desc_get_ext. intros g.
  destruct (desc_field_eqb_reflect g f) as [->|Hg].
  - rewrite (finish_slot_none f b1)
      by (rewrite (visit_description_absent f m2 a b1 E1 Hn2); exact Hs).
    rewrite (finish_slot_some f b2 v (field_default f)); [reflexivity| |exact Hv].
    rewrite (visit_description_absent f m2 _ b2 E2 Hn2). simpl.
    destruct (desc_field_eqb_reflect f f) as [_|c]; [reflexivity | now elim c].
  - apply finish_slot_same. symmetry. apply Hb. exact Hg.
Qed.

Lemma decode_default_value_as_absent_witness :
  de_description (YMap [("id", YScalar "a"); ("includes", YSeq []); ("flags", YSeq [YScalar "raw"])])
    = de_description (YMap [("id", YScalar "a"); ("flags", YSeq [YScalar "raw"])]).
Proof.
  apply (decode_default_value_as_absent DF_includes (YSeq []) [("id", YScalar "a")]
           [("flags", YSeq [YScalar "raw"])]);
    [reflexivity | simpl; intros [H|[H|[]]]; discriminate].
Defined.

Lemma skipn_cons_nth (A : Type) (l ps : list A) (i : nat) (p : A) :
  skipn i l = p :: ps -> nth_error l i = Some p /\ skipn (S i) l = ps.
Proof.
  revert l; induction i as [|i IH]; intros l H; destruct l as [|a l]; try discriminate.
  - simpl in H. injection H as -> ->. split; reflexivity.
  - apply (IH l H).
Qed.

Lemma skipn_nil_le (A : Type) (l : list A) (i : nat) :
  skipn i l = [] -> length l <= i.
Proof.
  revert l; induction i as [|i IH]; intros l H; destruct l as [|a l]; simpl in *;
    try lia; [discriminate | apply IH in H; lia].
Qed.

(** Iterating a [Harness] from position [i]: when no remaining file makes
    [create_test] panic, enough pulls yield the remaining paths' results in
    path order (errors included, none skipped) and leave the harness
    exhausted at the end of its path list. *)
Theorem iterate_yields_in_order
    (yaml_parse : string -> result yaml string)
    (license_regex : result (string -> option (nat * nat)) RegexError)
    (read_to_string : PathBuf -> result string IoError)
    (paths : list PathBuf) (rs : list (result Test Error)) (i n : nat) :
  i <= length paths ->
  Forall2 (fun p r => create_test_from_file yaml_parse license_regex read_to_string p = Ret r)
          (skipn i paths) rs ->
  length rs < n ->
  pulls yaml_parse license_regex read_to_string n {| test_paths := paths; idx := i |}
    = Ret (rs, {| test_paths := paths; idx := length paths |}).
Proof.
  intros Hi Hf. remember (skipn i paths) as ps eqn:Eps.
  revert i n Hi Eps. induction Hf as [|p r ps rs Hp Hf IH]; intros i n Hi Eps Hn.
  - destruct n as [|n]; [simpl in Hn; lia|].
    symmetry in Eps. apply skipn_nil_le in Eps.
    assert (i = length paths) as -> by lia.
    simpl. unfold next. simpl. rewrite Nat.leb_refl. reflexivity.
  - destruct n as [|n]; [simpl in Hn; lia|].
    symmetry in Eps. destruct (skipn_cons_nth _ _ _ _ _ Eps) as [Hnth Hs].
    simpl. rewrite (next_at yaml_parse license_regex read_to_string
                      {| test_paths := paths; idx := i |} p Hnth).
    cbv zeta. rewrite Hp. simpl in Hn.
    assert (Hi' : i < length paths) by (apply nth_error_Some; congruence).
    cbn [test_paths idx]. rewrite (IH (S i) n ltac:(lia) (eq_sym Hs) ltac:(lia)). reflexivity.
Qed.

Lemma iterate_yields_in_order_witness :
  pulls (fun _ => Ok (YMap [])) (Ok (fun _ => None))
        (fun p => if list_eq_dec String.string_dec p ["b.js"] then Err "denied"
                  else Ok "/*---
---*/")
        3 {| test_paths := [["a.js"]; ["b.js"]]; idx := 0 |}
    = Ret ([Ok {| source := "/*---
---*/"; path := ["a.js"];
                   desc := empty_description; license := None |}; Err (Io "denied")],
           {| test_paths := [["a.js"]; ["b.js"]]; idx := 2 |}).
Proof.
  apply (iterate_yields_in_order _ _ _ [["a.js"]; ["b.js"]] _ 0 3);
    [simpl; lia | | simpl; lia].
  constructor; [vm_compute; reflexivity|].
  constructor; [vm_compute; reflexivity | constructor].
Defined.

(** A panic of [create_test] on a remaining file ends the whole iteration:
    once the pulls reach it, no result of the earlier files is returned. *)
Theorem iterate_panic_aborts
    (yaml_parse : string -> result yaml string)
    (license_regex : result (string -> option (nat * nat)) RegexError)
    (read_to_string : PathBuf -> result string IoError)
    (paths ps1 ps2 : list PathBuf) (p : PathBuf) (rs1 : list (result Test Error)) (i n : nat) :
  skipn i paths = (ps1 ++ p :: ps2)%list ->
  Forall2 (fun q r => create_test_from_file yaml_parse license_regex read_to_string q = Ret r)
          ps1 rs1 ->
  create_test_from_file yaml_parse license_regex read_to_string p = Panic ->
  length ps1 < n ->
  pulls yaml_parse license_regex read_to_string n {| test_paths := paths; idx := i |} = Panic.
Proof.
  intros Eps Hf. revert i n Eps.
  induction Hf as [|q r ps rs Hq Hf IH]; intros i n Eps Hp Hn;
    (destruct n as [|n]; [simpl in Hn; lia|]); simpl in Eps.
  - destruct (skipn_cons_nth _ _ _ _ _ Eps) as [Hnth _].
    simpl. rewrite (next_at yaml_parse license_regex read_to_string
                      {| test_paths := paths; idx := i |} p Hnth).
    rewrite Hp. reflexivity.
  - destruct (skipn_cons_nth _ _ _ _ _ Eps) as [Hnth Hs].
    simpl. rewrite (next_at yaml_parse license_regex read_to_string
                      {| test_paths := paths; idx := i |} q Hnth).
    cbv zeta. rewrite Hq. cbn [test_paths idx]. simpl in Hn.
    rewrite (IH (S i) n Hs Hp ltac:(lia)). reflexivity.
Qed.

Lemma iterate_panic_aborts_witness :
  pulls (fun _ => Ok (YMap [])) (Ok (fun _ => None))
        (fun p => if list_eq_dec String.string_dec p ["b.js"] then Ok "---*/ /*---"
                  else Ok "/*---\n---*/")
        3 {| test_paths := [["a.js"]; ["b.js"]]; idx := 0 |} = Panic.
Proof.
  apply (iterate_panic_aborts _ _ _ [["a.js"]; ["b.js"]] [["a.js"]] [] ["b.js"]
           [Ok {| source := "/*---\n---*/"; path := ["a.js"];
                  desc := empty_description; license := None |}] 0 3);
    [reflexivity | | vm_compute; reflexivity | simpl; lia].
  constructor; [vm_compute; reflexivity | constructor].
Defined.

Lemma de_elems_ok_iff (A : Type) (d : yaml -> result A DeError) (l : list yaml) (xs : list A) :
  de_elems d l = Ok xs <-> Forall2 (fun v x => d v = Ok x) l xs.
Proof.
  revert xs; induction l as [|v l IH]; intros xs; simpl.
  - split; [intros H; injection H as <-; constructor | intros H; inversion H; reflexivity].
  - split.
    + destruct (d v) as [x|e] eqn:Ed; [|discriminate].
      destruct (de_elems d l) as [ys|e] eqn:El; [|discriminate].
      intros H; injection H as <-. constructor; [exact Ed | now apply IH].
    + intros H; inversion H as [|? x ? ys Hx Hys]; subst.
      rewrite Hx. apply IH in Hys. rewrite Hys. reflexivity.
Qed.

Lemma Forall2_in_l (A B : Type) (P : A -> B -> Prop) (l : list A) (l' : list B) (a : A) :
  Forall2 P l l' -> In a l -> exists b, P a b.
Proof.
  intros H; induction H as [|x y l l' Hxy _ IH]; [intros []|].
  intros [->|Hin]; [exists y; exact Hxy | exact (IH Hin)].
Qed.

(** One unknown spelling in the [flags] sequence makes the whole
    front matter fail to decode; unknown flags are never dropped. *)
Theorem unknown_flag_rejects_description (m : list (string * yaml)) (l : list yaml) (s : string) :
  In ("flags", YSeq l) m -> In (YScalar s) l -> flag_variant s = None ->
  forall d, de_description (YMap m) <> Ok d.
Proof.
  intros Hin Hs Hv d H. simpl in H.
  destruct (visit_description m []) as [acc|] eqn:E; [|discriminate].
  destruct (visit_description_key_slot m [] acc "flags" (YSeq l) DF_flags E Hin eq_refl)
    as [x [Hx _]].
  simpl in Hx. destruct (de_elems de_flag l) as [fs|] eqn:Ef; [|discriminate].
  apply de_elems_ok_iff in Ef.
  destruct (Forall2_in_l _ _ _ _ _ _ Ef Hs) as [f Hf].
  simpl in Hf. rewrite Hv in Hf. discriminate.
Qed.

Lemma unknown_flag_rejects_description_witness :
  de_description (YMap [("flags", YSeq [YScalar "raw"; YScalar "OnlyStrict"])])
    <> Ok empty_description.
Proof.
  apply (unknown_flag_rejects_description _ [YScalar "raw"; YScalar "OnlyStrict"] "OnlyStrict");
    [simpl; tauto | simpl; tauto | reflexivity].
Defined.

(** *** The derived [Serialize] of the front matter *)

(** [Option]: [None] is written as a null scalar, [Some x] as [x]. *)
Definition ser_option {A} (s : A -> yaml) (o : option A) : yaml :=
  match o with None => YScalar "null" | Some x => s x end.

(** Unit variants are written as their [camelCase] names; the aliases
    only apply when reading. *)
Definition flag_wire (f : Flag) : string :=
  match f with
  | OnlyStrict => "onlyStrict" | NoStrict => "noStrict" | Module => "module"
  | Raw => "raw" | Async => "async" | Generated => "generated"
  | CanBlockIsFalse => "canBlockIsFalse" | CanBlockIsTrue => "canBlockIsTrue"
  | NonDeterministic => "nonDeterministic"
  end.

Definition ser_negative (n : Negative) : yaml :=
  YMap [("phase", YScalar (phase_wire (phase n))); ("kind", ser_option YScalar (kind n))].

Definition ser_field (f : DescField) (d : Description) : yaml :=
  match f with
  | DF_id => ser_option YScalar (id d)
  | DF_esid => ser_option YScalar (esid d)
  | DF_es5id => ser_option YScalar (es5id d)
  | DF_es6id => ser_option YScalar (es6id d)
  | DF_info => ser_option YScalar (info d)
  | DF_description => ser_option YScalar (description d)
  | DF_negative => ser_option ser_negative (negative d)
  | DF_includes => YSeq (map YScalar (includes d))
  | DF_flags => YSeq (map (fun f => YScalar (flag_wire f)) (flags d))
  | DF_locale => YSeq (map YScalar (locale d))
  | DF_features => YSeq (map YScalar (features d))
  end.

(** The derived [serialize]: every field, in declaration order, under its
    own name. *)
Definition ser_description (d : Description) : yaml :=
  YMap (map (fun f => (desc_field_name f, ser_field f d)) desc_fields).

(** An optional string the YAML value can carry apart from [None]: the
    value model has no quoting, so a string spelled like null is excluded. *)
Definition opt_plain (o : option string) : bool :=
  match o with Some s => negb (is_null_scalar s) | None => true end.

Definition desc_plain (d : Description) : bool :=
  opt_plain (id d) && opt_plain (esid d) && opt_plain (es5id d) &&
  opt_plain (es6id d) && opt_plain (info d) && opt_plain (description d) &&
  match negative d with Some n => opt_plain (kind n) | None => true end.

Lemma de_opt_string_ser (o : option string) :
  opt_plain o = true -> de_option de_string (ser_option YScalar o) = Ok o.
Proof.
  destruct o as [s|]; simpl; [|reflexivity].
  intros H. apply negb_true_iff in H. rewrite H. reflexivity.
Qed.

Lemma de_elems_strings (l : list string) : de_elems de_string (map YScalar l) = Ok l.
Proof. induction l as [|s l IH]; simpl; [reflexivity | now rewrite IH]. Qed.

Lemma de_elems_flags (l : list Flag) :
  de_elems de_flag (map (fun f => YScalar (flag_wire f)) l) = Ok l.
Proof.
  induction l as [|f l IH]; simpl; [reflexivity|].
  rewrite IH. destruct f; reflexivity.
Qed.

Lemma de_ser_field (f : DescField) (d : Description) :
  desc_plain d = true -> de_desc_field f (ser_field f d) = Ok (desc_get f d).
Proof.
  unfold desc_plain. intros H.
  repeat match type of H with
         | (_ && _) = true => apply andb_true_iff in H; destruct H as [H ?]
         end.
  destruct f; simpl;
    try (match goal with
         | Hp : opt_plain ?o = true |- context [ser_option YScalar ?o] =>
             rewrite (de_opt_string_ser o Hp); reflexivity
         end);
    try (rewrite de_elems_strings; reflexivity);
    try (rewrite de_elems_flags; reflexivity).
  destruct (negative d) as [[p k]|]; simpl; [|reflexivity].
  destruct p; simpl; rewrite (de_opt_string_ser k H0); reflexivity.
Qed.

Lemma visit_description_fresh (val : DescField -> yaml) (x : DescField -> FieldVal)
    (fs : list DescField) :
  NoDup fs -> (forall f, In f fs -> de_desc_field f (val f) = Ok (x f)) ->
  forall acc, (forall f, In f fs -> slot f acc = None) ->
  exists acc', visit_description (map (fun f => (desc_field_name f, val f)) fs) acc = Ok acc' /\
    forall f, In f fs -> slot f acc' = Some (x f).
Proof.
  induction fs as [|f fs IH]; intros Hnd Hv acc Hs.
  - exists acc. split; [reflexivity | intros f []].
  - inversion Hnd as [|? ? Hnin Hnd']; subst.
    simpl. rewrite desc_field_of_name, (Hs f (or_introl eq_refl)), (Hv f (or_introl eq_refl)).
    destruct (IH Hnd' (fun g Hg => Hv g (or_intror Hg)) ((f, x f) :: acc)) as [acc' [E Ha]].
    + intros g Hg. simpl.
      destruct (desc_field_eqb_reflect g f) as [->|_]; [contradiction | exact (Hs g (or_intror Hg))].
    + exists acc'. split; [exact E|]. intros g [<-|Hg]; [|exact (Ha g Hg)].
      apply (visit_description_keeps_slot _ _ _ f (x f) E). simpl.
      destruct (desc_field_eqb_reflect f f) as [_|c]; [reflexivity | now elim c].
Qed.

(** Writing a [Description] with its derived [Serialize] and reading the
    value back with its derived [Deserialize] gives the same description
    (the aliases and [#[serde(default)]] do not get in the way). *)
Theorem description_serialize_roundtrip (d : Description) :
  desc_plain d = true -> de_description (ser_description d) = Ok d.
Proof.
  intros Hp. unfold de_description, ser_description.
  assert (Hnd : NoDup desc_fields) by (repeat constructor; simpl; intuition discriminate).
  destruct (visit_description_fresh (fun f => ser_field f d) (fun f => desc_get f d)
              desc_fields Hnd (fun f _ => de_ser_field f d Hp) [] (fun _ _ => eq_refl))
    as [acc [E Ha]].
  rewrite E. f_equal. apply desc_get_ext. intros g.
  assert (Hin : In g desc_fields) by (destruct g; simpl; tauto).
  exact (finish_slot_some g acc (ser_field g d) (desc_get g d) (Ha g Hin) (de_ser_field g d Hp)).
Qed.

Lemma description_serialize_roundtrip_witness :
  de_description (ser_description
    {| id := Some "a"; esid := None; es5id := None; es6id := None; info := None;
       description := Some "d"; negative := Some {| phase := Early; kind := Some "SyntaxError" |};
       includes := ["h.js"]; flags := [CanBlockIsFalse; NonDeterministic]; locale := [];
       features := ["f"] |})
  = Ok {| id := Some "a"; esid := None; es5id := None; es6id := None; info := None;
          description := Some "d"; negative := Some {| phase := Early; kind := Some "SyntaxError" |};
          includes := ["h.js"]; flags := [CanBlockIsFalse; NonDeterministic]; locale := [];
          features := ["f"] |}.
Proof. apply description_serialize_roundtrip. reflexivity. Defined.

(** The error of one file names what went wrong with that file: a read
    failure gives exactly [Io] of that failure, and a read file fails only
    with [DescriptionInvalid] of its own path, [Regex] or [Yaml]; [WalkDir]
    never comes from here. *)
Theorem create_test_from_file_errors
    (yaml_parse : string -> result yaml string)
    (license_regex : result (string -> option (nat * nat)) RegexError)
    (read_to_string : PathBuf -> result string IoError)
    (p : PathBuf) :
  (forall io, read_to_string p = Err io ->
     create_test_from_file yaml_parse license_regex read_to_string p = Ret (Err (Io io))) /\
  (forall e, create_test_from_file yaml_parse license_regex read_to_string p = Ret (Err e) ->
     (exists io, read_to_string p = Err io /\ e = Io io) \/
     (exists c, read_to_string p = Ok c /\
        (e = DescriptionInvalid p \/ (exists r, e = Regex r) \/ (exists y, e = Yaml y)))).
Proof.
  unfold create_test_from_file. split.
  { intros io Hr. rewrite Hr. reflexivity. }
  intros e. destruct (read_to_string p) as [c|io].
  2:{ intros H. injection H as <-. left. exists io. split; reflexivity. }
  intros H. right. exists c. split; [reflexivity|].
  unfold create_test, find_license in H.
  destruct (find_yaml c p) as [[a b]|e'] eqn:Ey.
  - destruct (str_slice c a b) as [y|]; [|discriminate].
    destruct license_regex as [fnd|r]; [|injection H as <-; right; left; exists r; reflexivity].
    destruct (yaml_from_str yaml_parse (replace_cr y)) as [dsc|ye]; [discriminate|].
    injection H as <-. right; right. exists ye. reflexivity.
  - injection H as ->. left. unfold find_yaml in Ey.
    destruct (str_find c "/*---"); [destruct (str_find c "---*/")|];
      congruence.
Qed.

Lemma create_test_from_file_errors_witness :
  create_test_from_file (fun _ => Ok (YMap [])) (Ok (fun _ => None))
    (fun _ => Err "permission denied") ["t.js"] = Ret (Err (Io "permission denied")).
Proof.
  apply (proj1 (create_test_from_file_errors (fun _ => Ok (YMap [])) (Ok (fun _ => None))
           (fun _ => Err "permission denied") ["t.js"])).
  reflexivity.
Defined.
